(** * agekms: an age recipient and identity for RSA keys held in Cloud KMS

    A shallow embedding of the two Go packages of the repository,

    - [rsaoaep] (rsaoaep/recipient.go): [keyID], [NewRecipient], [Wrap];
    - [gcpkms]  (gcpkms/client.go): [keyID], [NewClient], [addKey],
      [parsePEMEncodedRSAPublicKey], [crc32c], [Unwrap];

    together with models of the Go standard-library routines they call
    (encoding/asn1, crypto/sha256, encoding/base64, hash/crc32, crypto/rsa),
    written after the standards those routines implement and checked
    against published test vectors.  The remote key-management service,
    [pem.Decode] and [x509.ParsePKIXPublicKey] are collaborators: they are
    taken as parameters. *)

From Stdlib Require Import ZArith List String Ascii Lia Bool Zpow_facts.
From Stdlib.Strings Require Import Byte.
From stdpp Require Import base option list strings gmap.

Local Open Scope Z_scope.

(* ===================================================================== *)
(** ** Bytes and big-endian numbers *)
(* ===================================================================== *)

Module Bytes.

(** Go's [byte] is an 8-bit unsigned integer. *)
Definition byte_to_Z (b : byte) : Z := Z.of_N (Byte.to_N b).

(** The conversion [byte(x)] of an integer keeps the low eight bits. *)
Definition Z_to_byte (z : Z) : byte :=
  match Byte.of_N (Z.to_N (z mod 256)) with
  | Some b => b
  | None => x00
  end.

Definition byte_xor (a b : byte) : byte :=
  Z_to_byte (Z.lxor (byte_to_Z a) (byte_to_Z b)).

(** [be_bytes len n]: the [len] low base-256 digits of [n], most
    significant first.  Division is floor division, so a negative [n]
    comes out in two's complement. *)
Fixpoint be_bytes (len : nat) (n : Z) : list byte :=
  match len with
  | O => []
  | S len' => be_bytes len' (n / 256) ++ [Z_to_byte n]
  end.

(** The number a byte string denotes, most significant byte first. *)
Definition be_value (bs : list byte) : Z :=
  fold_left (fun acc b => acc * 256 + byte_to_Z b) bs 0.

(** [xor_bytes out mask]: [out[i] ^= mask[i]] over the length of [out]
    (bytes of [out] beyond the mask are left as they are). *)
Fixpoint xor_bytes (out mask : list byte) : list byte :=
  match out, mask with
  | o :: out', m :: mask' => byte_xor o m :: xor_bytes out' mask'
  | _, _ => out
  end.

End Bytes.
Import Bytes.

(* ===================================================================== *)
(** ** Go errors and results *)
(* ===================================================================== *)

(** The values of Go's [error] interface that can reach this code.  The
    errors the repository makes with [fmt.Errorf] are kept apart by
    constructor, with the values formatted into the message as
    arguments; [%w] keeps the wrapped error. *)
Inductive error : Type :=
  (* crypto/rsa *)
  | ErrMessageTooLong
  | errPublicExponentSmall
  | errPublicExponentLarge
  (* io *)
  | EOF
  | ErrUnexpectedEOF
  (* filippo.io/age *)
  | ErrIncorrectIdentity
  (* gcpkms: "invalid kms-rsa-oaep-sha256 recipient" *)
  | ErrInvalidRecipient
  (* gcpkms: "unsupported key type: %s" *)
  | ErrUnsupportedKeyType (algorithm : Z)
  (* gcpkms: "no PEM blocks found" *)
  | ErrNoPEMBlocks
  (* gcpkms: "found unexpected %q PEM block" *)
  | ErrUnexpectedPEMBlock (blockType : string)
  (* gcpkms: "failed to parse %q" *)
  | ErrFailedToParse (blockType : string)
  (* gcpkms: "problem with key %q: %w" *)
  | ErrProblemWithKey (name : string) (err : error)
  (* an error value made by a collaborator (the key-management service,
     crypto/x509, the random source); opaque to this code *)
  | ErrCollaborator (msg : string).

(** A Go result pair [(v, err)]: a value when [err == nil], the error
    otherwise. *)
Inductive result (A : Type) : Type :=
  | Ok (v : A)
  | Err (err : error).
Arguments Ok {A} v.
Arguments Err {A} err.

Definition is_Ok {A} (r : result A) : bool :=
  match r with Ok _ => true | Err _ => false end.

(* ===================================================================== *)
(** ** math/big: the part of [big.Int] the code relies on *)
(* ===================================================================== *)

Module big.

(** [x.BitLen()]: the length of the absolute value of [x] in bits;
    the bit length of 0 is 0. *)
Definition BitLen (x : Z) : Z :=
  if x =? 0 then 0 else Z.log2 (Z.abs x) + 1.

(** Number of bytes of the absolute value. *)
Definition ByteLen (x : Z) : nat := Z.to_nat ((BitLen x + 7) / 8).

(** [x.Bytes()]: the absolute value of [x] as a big-endian byte slice,
    without leading zero bytes. *)
Definition Bytes (x : Z) : list byte := be_bytes (ByteLen x) (Z.abs x).

(** [z.SetBytes(buf)]: [buf] read as a big-endian unsigned integer. *)
Definition SetBytes (buf : list byte) : Z := be_value buf.

(** [x.FillBytes(buf)] for a buffer of [len] bytes: the absolute value of
    [x] as a zero-extended big-endian byte slice.  Go panics when the
    value does not fit; the callers below only pass values that fit
    (see [rsa.encrypt_fits]). *)
Definition FillBytes (len : nat) (x : Z) : list byte := be_bytes len (Z.abs x).

(** [z.Exp(x, y, m)] for [y > 0]: [x**y mod |m|], and [x**y] when [m] is
    zero.  Computed by square and multiply. *)
Definition Exp (x y m : Z) : Z :=
  if m =? 0 then x ^ y else Zpow_mod x y (Z.abs m).

End big.

(* ===================================================================== *)
(** ** encoding/base64: [StdEncoding.EncodeToString] (RFC 4648, padded) *)
(* ===================================================================== *)

Module base64.

Definition encodeStd : string :=
  "ABCDEFGHIJKLMNOPQRSTUVWXYZabcdefghijklmnopqrstuvwxyz0123456789+/".

Definition StdPadding : ascii := "="%char.

(** [enc.encode[i]] *)
Definition encode (i : Z) : ascii :=
  nth (Z.to_nat i) (list_ascii_of_string encodeStd) "A"%char.

(** [enc.decodeMap[c]]: the index of a character of the alphabet, and
    0xFF for any other character. *)
Fixpoint index_from (c : ascii) (alphabet : list ascii) (i : Z) : Z :=
  match alphabet with
  | [] => 0xFF
  | a :: alphabet' =>
      if Ascii.eqb a c then i else index_from c alphabet' (i + 1)
  end.

Definition decodeMap (c : ascii) : Z :=
  index_from c (list_ascii_of_string encodeStd) 0.

(** [Encode]: three source bytes become four characters; a final group
    of one or two bytes is padded with [=]. *)
Fixpoint Encode (src : list byte) : list ascii :=
  match src with
  | [] => []
  | [b0] =>
      let val := Z.shiftl (byte_to_Z b0) 16 in
      [ encode (Z.land (Z.shiftr val 18) 0x3F);
        encode (Z.land (Z.shiftr val 12) 0x3F);
        StdPadding; StdPadding ]
  | [b0; b1] =>
      let val := Z.lor (Z.shiftl (byte_to_Z b0) 16) (Z.shiftl (byte_to_Z b1) 8) in
      [ encode (Z.land (Z.shiftr val 18) 0x3F);
        encode (Z.land (Z.shiftr val 12) 0x3F);
        encode (Z.land (Z.shiftr val 6) 0x3F);
        StdPadding ]
  | b0 :: b1 :: b2 :: rest =>
      let val := Z.lor (Z.lor (Z.shiftl (byte_to_Z b0) 16)
                              (Z.shiftl (byte_to_Z b1) 8))
                       (byte_to_Z b2) in
      encode (Z.land (Z.shiftr val 18) 0x3F)
      :: encode (Z.land (Z.shiftr val 12) 0x3F)
      :: encode (Z.land (Z.shiftr val 6) 0x3F)
      :: encode (Z.land val 0x3F)
      :: Encode rest
  end.

Definition EncodeToString (src : list byte) : string :=
  string_of_list_ascii (Encode src).

End base64.

(* ===================================================================== *)
(** ** crypto/sha256: [Sum256] (FIPS 180-4) *)
(* ===================================================================== *)

Module sha256.

Definition Size : nat := 32.
Definition BlockSize : nat := 64.

(** 32-bit words with wrap-around. *)
Definition w32 (x : Z) : Z := x mod 2 ^ 32.
Definition add32 (x y : Z) : Z := w32 (x + y).
Definition not32 (x : Z) : Z := Z.lxor x 0xFFFFFFFF.

(** [bits.RotateLeft32(x, -n)] *)
Definition rotr (n x : Z) : Z :=
  Z.lor (Z.shiftr x n) (w32 (Z.shiftl x (32 - n))).

Definition _K : list Z :=
  [ 0x428A2F98; 0x71374491; 0xB5C0FBCF; 0xE9B5DBA5; 0x3956C25B; 0x59F111F1; 0x923F82A4; 0xAB1C5ED5;
    0xD807AA98; 0x12835B01; 0x243185BE; 0x550C7DC3; 0x72BE5D74; 0x80DEB1FE; 0x9BDC06A7; 0xC19BF174;
    0xE49B69C1; 0xEFBE4786; 0x0FC19DC6; 0x240CA1CC; 0x2DE92C6F; 0x4A7484AA; 0x5CB0A9DC; 0x76F988DA;
    0x983E5152; 0xA831C66D; 0xB00327C8; 0xBF597FC7; 0xC6E00BF3; 0xD5A79147; 0x06CA6351; 0x14292967;
    0x27B70A85; 0x2E1B2138; 0x4D2C6DFC; 0x53380D13; 0x650A7354; 0x766A0ABB; 0x81C2C92E; 0x92722C85;
    0xA2BFE8A1; 0xA81A664B; 0xC24B8B70; 0xC76C51A3; 0xD192E819; 0xD6990624; 0xF40E3585; 0x106AA070;
    0x19A4C116; 0x1E376C08; 0x2748774C; 0x34B0BCB5; 0x391C0CB3; 0x4ED8AA4A; 0x5B9CCA4F; 0x682E6FF3;
    0x748F82EE; 0x78A5636F; 0x84C87814; 0x8CC70208; 0x90BEFFFA; 0xA4506CEB; 0xBEF9A3F7; 0xC67178F2 ].

(** The chaining value: eight 32-bit words. *)
Record digest := Digest {
  h0 : Z; h1 : Z; h2 : Z; h3 : Z; h4 : Z; h5 : Z; h6 : Z; h7 : Z
}.

Definition init : digest :=
  Digest 0x6A09E667 0xBB67AE85 0x3C6EF372 0xA54FF53A
         0x510E527F 0x9B05688C 0x1F83D9AB 0x5BE0CD19.

(** The sixteen big-endian words of a 64-byte block. *)
Fixpoint words (n : nat) (p : list byte) : list Z :=
  match n with
  | O => []
  | S n' => be_value (take 4 p) :: words n' (drop 4 p)
  end.

(** Message schedule: [w[i] = s1(w[i-2]) + w[i-7] + s0(w[i-15]) + w[i-16]]
    for [i] from 16 to 63. *)
Fixpoint schedule (n : nat) (w : list Z) : list Z :=
  match n with
  | O => w
  | S n' =>
      let i := length w in
      let v1 := nth (i - 2) w 0 in
      let t1 := Z.lxor (Z.lxor (rotr 17 v1) (rotr 19 v1)) (Z.shiftr v1 10) in
      let v2 := nth (i - 15) w 0 in
      let t2 := Z.lxor (Z.lxor (rotr 7 v2) (rotr 18 v2)) (Z.shiftr v2 3) in
      schedule n' (w ++ [add32 (add32 (add32 t1 (nth (i - 7) w 0)) t2)
                               (nth (i - 16) w 0)])
  end.

(** One round of the compression function on the working variables. *)
Definition round (s : digest) (kw : Z * Z) : digest :=
  let '(Digest a b c d e f g h) := s in
  let '(k, w) := kw in
  let t1 := add32 (add32 (add32 (add32 h
              (Z.lxor (Z.lxor (rotr 6 e) (rotr 11 e)) (rotr 25 e)))
              (Z.lxor (Z.land e f) (Z.land (not32 e) g))) k) w in
  let t2 := add32
              (Z.lxor (Z.lxor (rotr 2 a) (rotr 13 a)) (rotr 22 a))
              (Z.lxor (Z.lxor (Z.land a b) (Z.land a c)) (Z.land b c)) in
  Digest (add32 t1 t2) a b c (add32 d t1) e f g.

(** [block]: the compression function on one 64-byte block. *)
Definition block (s : digest) (p : list byte) : digest :=
  let w := schedule 48 (words 16 p) in
  let r := fold_left round (combine _K w) s in
  Digest (add32 (h0 s) (h0 r)) (add32 (h1 s) (h1 r))
         (add32 (h2 s) (h2 r)) (add32 (h3 s) (h3 r))
         (add32 (h4 s) (h4 r)) (add32 (h5 s) (h5 r))
         (add32 (h6 s) (h6 r)) (add32 (h7 s) (h7 r)).

Fixpoint blocks (n : nat) (s : digest) (p : list byte) : digest :=
  match n with
  | O => s
  | S n' => blocks n' (block s (take 64 p)) (drop 64 p)
  end.

(** Padding: a 0x80 byte, zero bytes up to 56 mod 64, and the length of
    the message in bits as a 64-bit big-endian number. *)
Definition pad (msg : list byte) : list byte :=
  let len := Z.of_nat (length msg) in
  let zeros := Z.to_nat ((55 - len) mod 64) in
  msg ++ [x80] ++ repeat x00 zeros ++ be_bytes 8 (len * 8).

Definition digest_bytes (s : digest) : list byte :=
  be_bytes 4 (h0 s) ++ be_bytes 4 (h1 s) ++ be_bytes 4 (h2 s) ++
  be_bytes 4 (h3 s) ++ be_bytes 4 (h4 s) ++ be_bytes 4 (h5 s) ++
  be_bytes 4 (h6 s) ++ be_bytes 4 (h7 s).

Definition Sum256 (data : list byte) : list byte :=
  let p := pad data in
  digest_bytes (blocks (length p / 64)%nat init p).

End sha256.

(* ===================================================================== *)
(** ** hash/crc32 *)
(* ===================================================================== *)

Module crc32.

(** The reversed Castagnoli polynomial. *)
Definition Castagnoli : Z := 0x82f63b78.

(** One table entry: eight shift-and-conditionally-xor steps. *)
Fixpoint populate (n : nat) (poly crc : Z) : Z :=
  match n with
  | O => crc
  | S n' =>
      populate n' poly
        (if Z.land crc 1 =? 1
         then Z.lxor (Z.shiftr crc 1) poly
         else Z.shiftr crc 1)
  end.

(** [MakeTable]: the 256-entry table of a polynomial. *)
Definition MakeTable (poly : Z) : list Z :=
  map (fun i => populate 8 poly (Z.of_nat i)) (seq 0 256).

(** [Update]: [crc = ^crc; crc = tab[byte(crc)^v] ^ (crc >> 8)] for each
    byte [v]; [return ^crc]. *)
Definition Update (crc : Z) (tab : list Z) (p : list byte) : Z :=
  Z.lxor
    (fold_left
       (fun crc v =>
          Z.lxor (nth (Z.to_nat (Z.lxor (Z.land crc 0xFF) (byte_to_Z v))) tab 0)
                 (Z.shiftr crc 8))
       p (Z.lxor crc 0xFFFFFFFF))
    0xFFFFFFFF.

Definition Checksum (data : list byte) (tab : list Z) : Z := Update 0 tab data.

End crc32.

(* ===================================================================== *)
(** ** io: readers, and crypto/rand's [Reader] *)
(* ===================================================================== *)

Module io.

(** A reader is the bytes it will still deliver followed by the error
    it then reports.  [rand.Reader] is such a reader, of which the
    program holds the only handle; calls receive it and return what is
    left of it. *)
Record Reader := { pending : list byte; fault : error }.

(** [io.ReadFull(r, buf)] for a buffer of [n] bytes: exactly [n] bytes,
    or an error; [ErrUnexpectedEOF] when the reader ended after some but
    not all of the bytes. *)
Definition ReadFull (r : Reader) (n : nat) : result (list byte) * Reader :=
  if (n <=? length (pending r))%nat
  then (Ok (take n (pending r)),
        {| pending := drop n (pending r); fault := fault r |})
  else (Err (match pending r, fault r with
             | _ :: _, EOF => ErrUnexpectedEOF
             | _, e => e
             end),
        {| pending := []; fault := fault r |}).

End io.

(* ===================================================================== *)
(** ** crypto/rsa: public keys and [EncryptOAEP] (RFC 8017, 7.1.1) *)
(* ===================================================================== *)

Module rsa.

(** [rsa.PublicKey]: the modulus [N] (a [*big.Int], taken non-nil) and
    the public exponent [E] (an [int]). *)
Record PublicKey := { N : Z; E : Z }.

(** [pub.Size()]: the modulus size in bytes. *)
Definition Size (pub : PublicKey) : nat := big.ByteLen (N pub).

(** [checkPub]: the sanity check every public-key operation starts
    with. *)
Definition checkPub (pub : PublicKey) : option error :=
  if E pub <? 2 then Some errPublicExponentSmall
  else if 2 ^ 31 - 1 <? E pub then Some errPublicExponentLarge
  else None.

(** A public key as the program can hold and use one: a positive
    modulus whose bit length is a Go [int], and an exponent that
    [checkPub] lets through. *)
Definition valid (pub : PublicKey) : Prop :=
  0 < N pub /\ big.BitLen (N pub) < 2 ^ 63 /\ 2 <= E pub <= 2 ^ 31 - 1.

(** The MGF1 mask of [len] bytes for a seed: the digests of
    [seed || counter] for the 4-byte big-endian counters 0, 1, ... *)
Definition mgf1 (seed : list byte) (len : nat) : list byte :=
  take len
    (concat (map (fun counter =>
                    sha256.Sum256 (seed ++ be_bytes 4 (Z.of_nat counter)))
                 (seq 0 (len / sha256.Size + 1)))).

(** [mgf1XOR(out, hash, seed)]: xor [out] with the mask of its length. *)
Definition mgf1XOR (out seed : list byte) : list byte :=
  xor_bytes out (mgf1 seed (length out)).

(** [encrypt]: [m**E mod N]. *)
Definition encrypt (pub : PublicKey) (m : Z) : Z := big.Exp m (E pub) (N pub).

(** [EncryptOAEP(sha256.New(), random, pub, msg, label)]. *)
Definition EncryptOAEP (random : io.Reader) (pub : PublicKey)
    (msg label : list byte) : result (list byte) * io.Reader :=
  match checkPub pub with
  | Some err => (Err err, random)
  | None =>
      let k := Size pub in
      if Z.of_nat k - 2 * Z.of_nat sha256.Size - 2 <? Z.of_nat (length msg)
      then (Err ErrMessageTooLong, random)
      else
        let lHash := sha256.Sum256 label in
        (* em = 0x00 || seed || db,  db = lHash || 0x00... || 0x01 || msg *)
        let db := lHash
                  ++ repeat x00 (k - 2 * sha256.Size - 2 - length msg)
                  ++ [x01] ++ msg in
        match io.ReadFull random sha256.Size with
        | (Err err, random') => (Err err, random')
        | (Ok seed, random') =>
            let db' := mgf1XOR db seed in
            let seed' := mgf1XOR seed db' in
            let em := x00 :: seed' ++ db' in
            let m := big.SetBytes em in
            let c := encrypt pub m in
            (Ok (big.FillBytes k c), random')
        end
  end.

End rsa.

(* ===================================================================== *)
(** ** encoding/asn1: DER marshalling of an [rsa.PublicKey] (X.690) *)
(* ===================================================================== *)

Module asn1.

Definition TagInteger : Z := 2.
Definition TagSequence : Z := 16.

(** [lengthLength]: the number of base-256 digits of a length
    (at least one). *)
Definition lengthLength (i : Z) : nat := Nat.max 1 (big.ByteLen i).

(** [appendTagAndLength] for a universal-class tag below 31: the
    identifier octet, then the length in the short form when it is
    below 128 and in the long form otherwise. *)
Definition appendTagAndLength (tag : Z) (isCompound : bool) (length : Z) : list byte :=
  let b := Z.lor (if isCompound then 0x20 else 0) tag in
  Z_to_byte b ::
  (if 128 <=? length
   then Z_to_byte (Z.lor 0x80 (Z.of_nat (lengthLength length)))
        :: be_bytes (lengthLength length) length
   else [Z_to_byte length]).

(** [makeBigInt]: the content octets of an INTEGER holding a [*big.Int],
    in minimal two's complement. *)
Definition makeBigInt (n : Z) : list byte :=
  if n <? 0 then
    let bytes := map (byte_xor xff) (big.Bytes (- n - 1)) in
    match bytes with
    | [] => xff :: bytes
    | b :: _ => if Z.land (byte_to_Z b) 0x80 =? 0 then xff :: bytes else bytes
    end
  else if n =? 0 then [x00]
  else
    let bytes := big.Bytes n in
    match bytes with
    | b :: _ => if negb (Z.land (byte_to_Z b) 0x80 =? 0) then x00 :: bytes else bytes
    | [] => bytes
    end.

(** [int64Encoder]: the content octets of an INTEGER holding an [int];
    [Len] is the least number of octets whose two's complement range
    contains the value. *)
Definition int64Len (i : Z) : nat :=
  Z.to_nat (big.BitLen (if i <? 0 then - i - 1 else i) / 8 + 1).

Definition int64Encode (i : Z) : list byte := be_bytes (int64Len i) i.

(** A primitive INTEGER field: identifier, length, content. *)
Definition marshalInteger (content : list byte) : list byte :=
  appendTagAndLength TagInteger false (Z.of_nat (length content)) ++ content.

(** The DER encoding of an [rsa.PublicKey]:
    [SEQUENCE { INTEGER N, INTEGER E }]. *)
Definition marshalPublicKey (key : rsa.PublicKey) : list byte :=
  let body := marshalInteger (makeBigInt (rsa.N key))
              ++ marshalInteger (int64Encode (rsa.E key)) in
  appendTagAndLength TagSequence true (Z.of_nat (length body)) ++ body.

(** [asn1.Marshal(key)] for a [*rsa.PublicKey].  Marshal reports an
    error for values it has no encoding for; a struct of a non-nil
    [*big.Int] and an [int] always has one. *)
Definition Marshal (key : rsa.PublicKey) : result (list byte) :=
  Ok (marshalPublicKey key).

End asn1.


(** The identifier of a key, as both packages compute it when nothing
    fails: the standard base64 text of the SHA-256 digest of the DER
    encoding of the key. *)
Definition identify (key : rsa.PublicKey) : string :=
  base64.EncodeToString (sha256.Sum256 (asn1.marshalPublicKey key)).

(** A visible ASCII character: one with a code from 33 to 126. *)
Definition visible (ch : ascii) : Prop :=
  (33 <= nat_of_ascii ch <= 126)%nat.

(* ===================================================================== *)
(** ** filippo.io/age: stanzas *)
(* ===================================================================== *)

Module age.

(** [age.Stanza]: a recipient stanza of a file header. *)
Record Stanza := {
  Type_ : string;
  Args : list string;
  Body : list byte
}.

End age.

(* ===================================================================== *)
(** ** Package rsaoaep (rsaoaep/recipient.go) *)
(* ===================================================================== *)

Module rsaoaep.

Definition keyID (key : rsa.PublicKey) : result string :=
  match asn1.Marshal key with
  | Err err => Err err
  | Ok keyBytes =>
      let digest := sha256.Sum256 keyBytes in
      Ok (base64.EncodeToString digest)
  end.

Record recipient := {
  key : rsa.PublicKey;
  recipient_keyID : string
}.

(** [NewRecipient] creates an [age.Recipient] representing an RSA public
    key. *)
Definition NewRecipient (key : rsa.PublicKey) : result recipient :=
  match keyID key with
  | Err err => Err err
  | Ok keyID => Ok {| key := key; recipient_keyID := keyID |}
  end.

(** [Wrap]; the random source [rand.Reader] is received and returned. *)
Definition Wrap (r : recipient) (fileKey : list byte) (random : io.Reader)
    : result (list age.Stanza) * io.Reader :=
  let l_Type := "kms-rsa-oaep-sha256"%string in
  let l_Args := [recipient_keyID r] in
  match rsa.EncryptOAEP random (key r) fileKey [] with
  | (Err err, random') => (Err err, random')
  | (Ok wrappedKey, random') =>
      (Ok [ {| age.Type_ := l_Type; age.Args := l_Args; age.Body := wrappedKey |} ],
       random')
  end.

End rsaoaep.

(* ===================================================================== *)
(** ** Collaborators of package gcpkms *)
(* ===================================================================== *)

(** encoding/pem: a decoded block. *)
Module pem.

Record Block := {
  Type_ : string;
  Headers : list (string * string);
  Bytes : list byte
}.

End pem.

(** crypto/x509: what [ParsePKIXPublicKey] can return.  Only the RSA
    case is looked into; the other kinds of key keep their raw
    encoding. *)
Module x509.

Inductive PublicKey : Type :=
  | RSAPublicKey (pub : rsa.PublicKey)
  | DSAPublicKey (raw : list byte)
  | ECDSAPublicKey (raw : list byte)
  | Ed25519PublicKey (raw : list byte).

End x509.

(** cloud.google.com/go/kms/apiv1 and its protocol messages. *)
Module kmspb.

(** [CryptoKeyVersion_CryptoKeyVersionAlgorithm]: an enumeration carried
    as a 32-bit integer; the three values the code names. *)
Definition CryptoKeyVersion_RSA_DECRYPT_OAEP_2048_SHA256 : Z := 8.
Definition CryptoKeyVersion_RSA_DECRYPT_OAEP_3072_SHA256 : Z := 9.
Definition CryptoKeyVersion_RSA_DECRYPT_OAEP_4096_SHA256 : Z := 10.

Record GetPublicKeyRequest := { GetPublicKeyRequest_Name : string }.

Record PublicKey := {
  Pem : string;
  Algorithm : Z;
  Name : string
}.

Record AsymmetricDecryptRequest := {
  AsymmetricDecryptRequest_Name : string;
  Ciphertext : list byte;
  (** a wrapped [int64]; [None] is the nil wrapper *)
  CiphertextCrc32C : option Z
}.

Record AsymmetricDecryptResponse := {
  Plaintext : list byte;
  PlaintextCrc32C : option Z;
  VerifiedCiphertextCrc32C : bool
}.

End kmspb.

Module kms.

(** The remote calls of a [*kms.KeyManagementClient], over the state [S]
    of the service and the connection: each call receives the state and
    returns the state it leaves. *)
Record KeyManagementClient (S : Type) := {
  GetPublicKey : kmspb.GetPublicKeyRequest -> S -> result kmspb.PublicKey * S;
  AsymmetricDecrypt :
    kmspb.AsymmetricDecryptRequest -> S ->
    result kmspb.AsymmetricDecryptResponse * S;
  Close : S -> option error * S
}.
Arguments GetPublicKey {S}.
Arguments AsymmetricDecrypt {S}.
Arguments Close {S}.

End kms.

(** The package-level functions gcpkms calls and that are not modelled
    here. *)
Class Collaborators (S : Type) := {
  (** [pem.Decode(data)]: the first block found, or nil. *)
  pem_Decode : list byte -> option pem.Block;
  (** [x509.ParsePKIXPublicKey(der)] *)
  x509_ParsePKIXPublicKey : list byte -> result x509.PublicKey;
  (** [kms.NewKeyManagementClient(ctx)] *)
  kms_NewKeyManagementClient : S -> result (kms.KeyManagementClient S) * S
}.

(* ===================================================================== *)
(** ** Package gcpkms (gcpkms/client.go) *)
(* ===================================================================== *)

Module gcpkms.

Definition keyID (key : rsa.PublicKey) : result string :=
  match asn1.Marshal key with
  | Err err => Err err
  | Ok keyBytes =>
      let digest := sha256.Sum256 keyBytes in
      Ok (base64.EncodeToString digest)
  end.

Definition crc32c (data : list byte) : Z :=
  let t := crc32.MakeTable crc32.Castagnoli in
  crc32.Checksum data t.

(** What the code does that can be observed from outside it, in program
    order: reads of the registry and remote calls. *)
Inductive event : Type :=
  | EvRegistryLookup (id : string)
  | EvGetPublicKey (req : kmspb.GetPublicKeyRequest)
  | EvAsymmetricDecrypt (req : kmspb.AsymmetricDecryptRequest)
  | EvClose.

Definition is_AsymmetricDecrypt (ev : event) : bool :=
  match ev with EvAsymmetricDecrypt _ => true | _ => false end.

Definition is_RegistryLookup (ev : event) : bool :=
  match ev with EvRegistryLookup _ => true | _ => false end.

Section Client.

Context {S : Type}.

(** The state a call runs in: the state of the service, and the events
    so far (oldest first). *)
Record world := {
  remote : S;
  trace : list event
}.

(** Computations that may fail with a Go error and that act on the
    world. *)
Definition M (A : Type) : Type := world -> result A * world.

Definition ret {A} (v : A) : M A := fun w => (Ok v, w).
Definition throw {A} (err : error) : M A := fun w => (Err err, w).
Definition bind {A B} (m : M A) (k : A -> M B) : M B :=
  fun w =>
    match m w with
    | (Ok v, w') => k v w'
    | (Err err, w') => (Err err, w')
    end.
Definition log (ev : event) : M unit :=
  fun w => (Ok tt, {| remote := remote w; trace := trace w ++ [ev] |}).
Definition remote_call {A} (f : S -> result A * S) : M A :=
  fun w =>
    let '(r, s) := f (remote w) in
    (r, {| remote := s; trace := trace w |}).

Notation "x <- m ;; k" := (bind m (fun x => k))
  (at level 100, m at next level, right associativity).
Notation "m ;;; k" := (bind m (fun _ => k))
  (at level 100, right associativity).

(** [client]: the connection and the registry, from key identifier to
    key name. *)
Record client := {
  kmsClient : kms.KeyManagementClient S;
  nameByKeyID : gmap string string
}.

Definition call_GetPublicKey (c : client) (req : kmspb.GetPublicKeyRequest)
    : M kmspb.PublicKey :=
  log (EvGetPublicKey req) ;;;
  remote_call (kms.GetPublicKey (kmsClient c) req).

Definition call_AsymmetricDecrypt (c : client)
    (req : kmspb.AsymmetricDecryptRequest)
    : M kmspb.AsymmetricDecryptResponse :=
  log (EvAsymmetricDecrypt req) ;;;
  remote_call (kms.AsymmetricDecrypt (kmsClient c) req).

(** [c.nameByKeyID[id]] with its [ok] flag. *)
Definition lookup_nameByKeyID (c : client) (id : string) : M (option string) :=
  log (EvRegistryLookup id) ;;;
  ret (nameByKeyID c !! id).

Context `{!Collaborators S}.

Definition parsePEMEncodedRSAPublicKey (pemBytes : list byte)
    : result rsa.PublicKey :=
  match pem_Decode pemBytes with
  | None => Err ErrNoPEMBlocks
  | Some block =>
      if negb (String.eqb (pem.Type_ block) "RSA PUBLIC KEY")
      then Err (ErrUnexpectedPEMBlock (pem.Type_ block))
      else
        match x509_ParsePKIXPublicKey (pem.Bytes block) with
        | Err err => Err err
        | Ok parsed =>
            match parsed with
            | x509.RSAPublicKey pubKey => Ok pubKey
            | _ => Err (ErrFailedToParse (pem.Type_ block))
            end
        end
  end.

(** [addKey]; the client with its registry updated is returned. *)
Definition addKey (c : client) (name : string) : M client :=
  resp <- call_GetPublicKey c {| kmspb.GetPublicKeyRequest_Name := name |} ;;
  if (kmspb.Algorithm resp =? kmspb.CryptoKeyVersion_RSA_DECRYPT_OAEP_2048_SHA256)
     || (kmspb.Algorithm resp =? kmspb.CryptoKeyVersion_RSA_DECRYPT_OAEP_3072_SHA256)
     || (kmspb.Algorithm resp =? kmspb.CryptoKeyVersion_RSA_DECRYPT_OAEP_4096_SHA256)
  then
    match parsePEMEncodedRSAPublicKey (list_byte_of_string (kmspb.Pem resp)) with
    | Err err => throw err
    | Ok key =>
        match keyID key with
        | Err err => throw err
        | Ok id =>
            ret {| kmsClient := kmsClient c;
                   nameByKeyID := <[ id := kmspb.Name resp ]> (nameByKeyID c) |}
        end
    end
  else throw (ErrUnsupportedKeyType (kmspb.Algorithm resp)).

(** What a successful [addKey] for [name] can register: the service
    answers the fetch, in some state, with a key of a supported
    algorithm; [id] is the identifier of the key parsed from the answer
    and [n] the name in the answer. *)
Definition fetched (kc : kms.KeyManagementClient S) (name id n : string) : Prop :=
  exists s resp s' key,
    kms.GetPublicKey kc {| kmspb.GetPublicKeyRequest_Name := name |} s
    = (Ok resp, s') /\
    ((kmspb.Algorithm resp =? kmspb.CryptoKeyVersion_RSA_DECRYPT_OAEP_2048_SHA256)
     || (kmspb.Algorithm resp =? kmspb.CryptoKeyVersion_RSA_DECRYPT_OAEP_3072_SHA256)
     || (kmspb.Algorithm resp =? kmspb.CryptoKeyVersion_RSA_DECRYPT_OAEP_4096_SHA256)
     = true) /\
    parsePEMEncodedRSAPublicKey (list_byte_of_string (kmspb.Pem resp)) = Ok key /\
    id = identify key /\
    n = kmspb.Name resp.

(** The loop of [NewClient] over the names. *)
Fixpoint addKeys (cl : client) (names : list string) : M client :=
  match names with
  | [] => ret cl
  | name :: names' =>
      fun w =>
        match addKey cl name w with
        | (Err err, w') => (Err (ErrProblemWithKey name err), w')
        | (Ok cl', w') => addKeys cl' names' w'
        end
  end.

(** [NewClient] creates an [age.Identity] that decrypts using the
    key-management service. *)
Definition NewClient (names : list string) : M client :=
  kmsClient <- remote_call kms_NewKeyManagementClient ;;
  addKeys {| kmsClient := kmsClient; nameByKeyID := ∅ |} names.

(** [Unwrap]: the loop over the stanzas. *)
Fixpoint Unwrap (c : client) (stanzas : list age.Stanza) : M (list byte) :=
  match stanzas with
  | [] => throw ErrIncorrectIdentity
  | stanza :: stanzas' =>
      if negb (String.eqb (age.Type_ stanza) "kms-rsa-oaep-sha256")
      then Unwrap c stanzas'
      else if negb (length (age.Args stanza) =? 1)%nat
      then throw ErrInvalidRecipient
      else
        found <- lookup_nameByKeyID c (nth 0 (age.Args stanza) ""%string) ;;
        match found with
        | None => Unwrap c stanzas'
        | Some name =>
            let req :=
              {| kmspb.AsymmetricDecryptRequest_Name := name;
                 kmspb.Ciphertext := age.Body stanza;
                 kmspb.CiphertextCrc32C := Some (crc32c (age.Body stanza)) |} in
            resp <- call_AsymmetricDecrypt c req ;;
            ret (kmspb.Plaintext resp)
        end
  end.

(** [Close] *)
Definition Close (c : client) : world -> option error * world :=
  fun w =>
    let '(r, s) := kms.Close (kmsClient c) (remote w) in
    (r, {| remote := s; trace := trace w ++ [EvClose] |}).

(** *** Vocabulary for the properties of [Unwrap] *)

(** A stanza the scan passes over: one of another type, or one of the
    recognized type with exactly one argument that the registry does not
    hold. *)
Definition passed_over (c : client) (stanza : age.Stanza) : Prop :=
  age.Type_ stanza <> "kms-rsa-oaep-sha256"%string \/
  (age.Type_ stanza = "kms-rsa-oaep-sha256"%string /\
   exists id, age.Args stanza = [id] /\ nameByKeyID c !! id = None).

(** The events of a scan over stanzas that are all passed over: one
    registry read for each stanza of the recognized type. *)
Fixpoint scan_events (stanzas : list age.Stanza) : list event :=
  match stanzas with
  | [] => []
  | stanza :: stanzas' =>
      if String.eqb (age.Type_ stanza) "kms-rsa-oaep-sha256"
      then EvRegistryLookup (nth 0 (age.Args stanza) ""%string)
           :: scan_events stanzas'
      else scan_events stanzas'
  end.

(** The request [Unwrap] makes for a stanza resolved to [name]. *)
Definition decrypt_request (name : string) (stanza : age.Stanza)
    : kmspb.AsymmetricDecryptRequest :=
  {| kmspb.AsymmetricDecryptRequest_Name := name;
     kmspb.Ciphertext := age.Body stanza;
     kmspb.CiphertextCrc32C := Some (crc32c (age.Body stanza)) |}.

(** The state [w] after the events [evs], the service left in [s]. *)
Definition after (w : world) (s : S) (evs : list event) : world :=
  {| remote := s; trace := trace w ++ evs |}.

End Client.

(** An algorithm tag other than the three the code names. *)
Definition unsupported (algorithm : Z) : Prop :=
  algorithm <> kmspb.CryptoKeyVersion_RSA_DECRYPT_OAEP_2048_SHA256 /\
  algorithm <> kmspb.CryptoKeyVersion_RSA_DECRYPT_OAEP_3072_SHA256 /\
  algorithm <> kmspb.CryptoKeyVersion_RSA_DECRYPT_OAEP_4096_SHA256.

(** The event of fetching the public key of a name. *)
Definition fetch (name : string) : event :=
  EvGetPublicKey {| kmspb.GetPublicKeyRequest_Name := name |}.

(** The number of decrypt calls in a trace. *)
Definition decrypt_calls (t : list event) : nat :=
  length (filter (fun ev => is_AsymmetricDecrypt ev = true) t).

Arguments world : clear implicits.
Arguments M : clear implicits.
Arguments client : clear implicits.

End gcpkms.

(* ===================================================================== *)
(** ** Test doubles *)
(* ===================================================================== *)

(** A small key-management service and a few stanzas, on which the
    properties below are run. *)
Module Fixture.

Import gcpkms.

(** The service counts the calls it has served. *)
Definition service : Type := nat.

Definition fileKey : list byte := list_byte_of_string "0123456789abcdef".

(** Three keys are configured.  [keys/A] is an RSA decryption key whose
    public key comes in a block of the type the code expects;
    [keys/sign] is a signing key; [keys/pkix] is the key of [keys/A]
    again, in a block of type [PUBLIC KEY]. *)
Definition keyA : rsa.PublicKey := {| rsa.N := 0xC0FFEE0DDBA11; rsa.E := 65537 |}.

Definition pemA : string :=
  "-----BEGIN RSA PUBLIC KEY----- A -----END RSA PUBLIC KEY-----".
Definition pemPKIX : string :=
  "-----BEGIN PUBLIC KEY----- A -----END PUBLIC KEY-----".
Definition pemEd : string :=
  "-----BEGIN RSA PUBLIC KEY----- Ed -----END RSA PUBLIC KEY-----".

Definition RSA_SIGN_PKCS1_2048_SHA256 : Z := 5.

Definition getPublicKey (req : kmspb.GetPublicKeyRequest) (s : service)
    : result kmspb.PublicKey * service :=
  let name := kmspb.GetPublicKeyRequest_Name req in
  if String.eqb name "keys/A" then
    (Ok {| kmspb.Pem := pemA;
           kmspb.Algorithm := kmspb.CryptoKeyVersion_RSA_DECRYPT_OAEP_2048_SHA256;
           kmspb.Name := "keys/A/cryptoKeyVersions/1" |}, Datatypes.S s)
  else if String.eqb name "keys/sign" then
    (Ok {| kmspb.Pem := pemA;
           kmspb.Algorithm := RSA_SIGN_PKCS1_2048_SHA256;
           kmspb.Name := "keys/sign/cryptoKeyVersions/1" |}, Datatypes.S s)
  else if String.eqb name "keys/pkix" then
    (Ok {| kmspb.Pem := pemPKIX;
           kmspb.Algorithm := kmspb.CryptoKeyVersion_RSA_DECRYPT_OAEP_3072_SHA256;
           kmspb.Name := "keys/pkix/cryptoKeyVersions/1" |}, Datatypes.S s)
  else (Err (ErrCollaborator "not found"), Datatypes.S s).

(** The service decrypts under the key [keys/B] only; the checksum it
    returns with the plaintext is not the checksum of the plaintext. *)
Definition kc : kms.KeyManagementClient service :=
  {| kms.GetPublicKey := getPublicKey;
     kms.AsymmetricDecrypt := fun req s =>
       if String.eqb (kmspb.AsymmetricDecryptRequest_Name req) "keys/B"
       then (Ok {| kmspb.Plaintext := fileKey;
                   kmspb.PlaintextCrc32C := Some 0;
                   kmspb.VerifiedCiphertextCrc32C := true |},
             Datatypes.S s)
       else (Err (ErrCollaborator "permission denied"), Datatypes.S s);
     kms.Close := fun s => (None, s) |}.

(** Stand-ins for [pem.Decode] and [x509.ParsePKIXPublicKey] that know
    the three texts above. *)
Definition decode (data : list byte) : option pem.Block :=
  let text := string_of_list_byte data in
  if String.eqb text pemA then
    Some {| pem.Type_ := "RSA PUBLIC KEY"; pem.Headers := [];
            pem.Bytes := asn1.marshalPublicKey keyA |}
  else if String.eqb text pemPKIX then
    Some {| pem.Type_ := "PUBLIC KEY"; pem.Headers := [];
            pem.Bytes := asn1.marshalPublicKey keyA |}
  else if String.eqb text pemEd then
    Some {| pem.Type_ := "RSA PUBLIC KEY"; pem.Headers := [];
            pem.Bytes := [x0e; x0d] |}
  else None.

Definition parsePKIX (der : list byte) : result x509.PublicKey :=
  if String.eqb (string_of_list_byte der)
                (string_of_list_byte (asn1.marshalPublicKey keyA))
  then Ok (x509.RSAPublicKey keyA)
  else if String.eqb (string_of_list_byte der) (string_of_list_byte [x0e; x0d])
  then Ok (x509.Ed25519PublicKey der)
  else Err (ErrCollaborator "x509: failed to parse public key").

Definition collaborators : Collaborators service :=
  {| pem_Decode := decode;
     x509_ParsePKIXPublicKey := parsePKIX;
     kms_NewKeyManagementClient := fun s => (Ok kc, s) |}.

(** The identifier of [keyA]. *)
Definition idA : string :=
  match gcpkms.keyID keyA with Ok id => id | Err _ => ""%string end.

Definition registry : gmap string string :=
  <[ "id-A"%string := "keys/A"%string ]>
    (<[ "id-B"%string := "keys/B"%string ]> ∅).

Definition cl : client service :=
  {| kmsClient := kc; nameByKeyID := registry |}.

Definition w0 : world service := {| remote := 0%nat; trace := [] |}.

Definition x25519 : age.Stanza :=
  {| age.Type_ := "X25519"; age.Args := ["abc"%string]; age.Body := [x01; x02] |}.
Definition stranger : age.Stanza :=
  {| age.Type_ := "kms-rsa-oaep-sha256"; age.Args := ["id-C"%string];
     age.Body := [x03] |}.
Definition no_args : age.Stanza :=
  {| age.Type_ := "kms-rsa-oaep-sha256"; age.Args := []; age.Body := [x04] |}.
Definition two_args : age.Stanza :=
  {| age.Type_ := "kms-rsa-oaep-sha256";
     age.Args := ["id-B"%string; "id-B"%string]; age.Body := [x05] |}.
Definition for_A : age.Stanza :=
  {| age.Type_ := "kms-rsa-oaep-sha256"; age.Args := ["id-A"%string];
     age.Body := [x06; x07] |}.
Definition for_B : age.Stanza :=
  {| age.Type_ := "kms-rsa-oaep-sha256"; age.Args := ["id-B"%string];
     age.Body := [x08; x09] |}.

(** The client that [NewClient] makes for the name [keys/A]. *)
Definition clA : client service :=
  {| kmsClient := kc;
     nameByKeyID := <[ idA := "keys/A/cryptoKeyVersions/1"%string ]> ∅ |}.

(** *** A family of keys *)

(** The valid keys with exponent 65537 and the odd 2048-bit moduli
    [2^2047 + 2i + 1]. *)
Definition key_of (i : Z) : rsa.PublicKey :=
  {| rsa.N := 2 ^ 2047 + 2 * i + 1; rsa.E := 65537 |}.

(** The SHA-256 digest of the DER encoding of a key, as a number. *)
Definition digest_of (key : rsa.PublicKey) : Z :=
  be_value (sha256.Sum256 (asn1.marshalPublicKey key)).

(** *** A service that really decrypts *)

(** An RSA key whose modulus is the product of 41 primes of 17 bits (RSA
    with more than two primes, RFC 8017, 3.2), so that decryption by the
    Chinese remainder theorem is cheap to evaluate.  Each prime comes
    with the private exponent for it, the inverse of E modulo the prime
    less one. *)
Definition factors : list (Z * Z) :=
  [ (65539, 65537); (65543, 39325); (65551, 50423); (65557, 55205); (65563, 60317);
    (65579, 20793); (65581, 39653); (65587, 62909); (65599, 8603); (65609, 16633);
    (65617, 55649); (65629, 54089); (65633, 50433); (65647, 44567); (65651, 43573);
    (65657, 14345); (65677, 43469); (65687, 59955); (65699, 59169); (65701, 35873);
    (65707, 54431); (65713, 64961); (65717, 40017); (65719, 61361); (65729, 2753);
    (65731, 31673); (65761, 31553); (65777, 20641); (65789, 7601); (65809, 1457);
    (65827, 36899); (65831, 8313); (65837, 62313); (65839, 5687); (65843, 1727);
    (65851, 12623); (65867, 1001); (65881, 46673); (65899, 6389); (65921, 25473);
    (65927, 52029) ].

Definition keyB : rsa.PublicKey :=
  {| rsa.N := fold_right Z.mul 1 (map fst factors); rsa.E := 65537 |}.

(** The RSA private-key operation, by Garner's recombination: [m] is the
    plaintext representative modulo the product [M] of the primes done
    so far. *)
Fixpoint garner (c : Z) (fs : list (Z * Z)) (m M : Z) : Z :=
  match fs with
  | [] => m
  | (p, d) :: fs' =>
      let mp := Zpow_mod (c mod p) d p in
      let inv := Zpow_mod (M mod p) (p - 2) p in
      garner c fs' (m + M * (((mp - m) * inv) mod p)) (M * p)
  end.

(** The data block after the label hash: zero bytes, a 0x01 byte, the
    message. *)
Fixpoint unpad (db : list byte) : option (list byte) :=
  match db with
  | [] => None
  | b :: db' =>
      if Byte.eqb b x00 then unpad db'
      else if Byte.eqb b x01 then Some db'
      else None
  end.

Definition bytes_eqb (a b : list byte) : bool :=
  String.eqb (string_of_list_byte a) (string_of_list_byte b).

(** RSAES-OAEP decryption (RFC 8017, 7.1.2) with SHA-256 under the
    private key of [keyB]. *)
Definition decryptOAEP (ciphertext label : list byte) : result (list byte) :=
  let k := rsa.Size keyB in
  if negb (length ciphertext =? k)%nat
  then Err (ErrCollaborator "decryption error")
  else
    let m := garner (be_value ciphertext) factors 0 1 in
    match be_bytes k m with
    | [] => Err (ErrCollaborator "decryption error")
    | first :: rest =>
        let maskedSeed := take sha256.Size rest in
        let maskedDB := drop sha256.Size rest in
        let seed := rsa.mgf1XOR maskedSeed maskedDB in
        let db := rsa.mgf1XOR maskedDB seed in
        if Byte.eqb first x00
           && bytes_eqb (take sha256.Size db) (sha256.Sum256 label)
        then match unpad (drop sha256.Size db) with
             | Some msg => Ok msg
             | None => Err (ErrCollaborator "decryption error")
             end
        else Err (ErrCollaborator "decryption error")
    end.

Definition hsm : kms.KeyManagementClient service :=
  {| kms.GetPublicKey := getPublicKey;
     kms.AsymmetricDecrypt := fun req s =>
       if String.eqb (kmspb.AsymmetricDecryptRequest_Name req)
                     "keys/B/cryptoKeyVersions/1"
       then match decryptOAEP (kmspb.Ciphertext req) [] with
            | Ok msg =>
                (Ok {| kmspb.Plaintext := msg;
                       kmspb.PlaintextCrc32C := Some (crc32c msg);
                       kmspb.VerifiedCiphertextCrc32C := true |},
                 Datatypes.S s)
            | Err err => (Err err, Datatypes.S s)
            end
       else (Err (ErrCollaborator "not found"), Datatypes.S s);
     kms.Close := fun s => (None, s) |}.

(** A client whose registry holds [keyB]. *)
Definition clB : client service :=
  {| kmsClient := hsm;
     nameByKeyID := <[ identify keyB := "keys/B/cryptoKeyVersions/1"%string ]> ∅ |}.

(** A random source that delivers 40 bytes. *)
Definition entropy : io.Reader :=
  {| io.pending := list_byte_of_string "seed seed seed seed seed seed seed seed ";
     io.fault := EOF |}.

Definition recipientB : rsaoaep.recipient :=
  {| rsaoaep.key := keyB; rsaoaep.recipient_keyID := identify keyB |}.

(** The ciphertext [EncryptOAEP] makes of the file key. *)
Definition ciphertext : list byte :=
  match rsa.EncryptOAEP entropy keyB fileKey [] with
  | (Ok ct, _) => ct
  | (Err _, _) => []
  end.

(** The stanzas [Wrap] makes for the file key. *)
Definition wrapped : list age.Stanza :=
  match rsaoaep.Wrap recipientB fileKey entropy with
  | (Ok stanzas, _) => stanzas
  | (Err _, _) => []
  end.

End Fixture.

(* ===================================================================== *)
(** * Properties *)
(* ===================================================================== *)

(** ** Bytes and big-endian numbers *)

Section BytesFacts.

Lemma byte_to_Z_range (b : byte) : 0 <= byte_to_Z b < 256.
Proof.
  unfold byte_to_Z. pose proof (Byte.to_N_bounded b). lia.
Qed.

Lemma byte_to_Z_to_byte (z : Z) : byte_to_Z (Z_to_byte z) = z mod 256.
Proof.
  unfold byte_to_Z, Z_to_byte.
  assert (0 <= z mod 256 < 256) as Hr by (apply Z.mod_pos_bound; lia).
  destruct (Byte.of_N (Z.to_N (z mod 256))) as [b|] eqn:Hb.
  - apply Byte.to_of_N in Hb. rewrite Hb. lia.
  - apply Byte.of_N_None_iff in Hb. lia.
Qed.

Lemma Z_to_byte_to_Z (b : byte) : Z_to_byte (byte_to_Z b) = b.
Proof.
  unfold byte_to_Z, Z_to_byte.
  pose proof (Byte.to_N_bounded b).
  rewrite Z.mod_small by lia. rewrite N2Z.id. by rewrite Byte.of_to_N.
Qed.

Lemma byte_to_Z_inj (a b : byte) : byte_to_Z a = byte_to_Z b -> a = b.
Proof.
  intros H. rewrite <- (Z_to_byte_to_Z a), <- (Z_to_byte_to_Z b). by rewrite H.
Qed.

Lemma be_bytes_length (len : nat) (n : Z) : length (be_bytes len n) = len.
Proof.
  revert n. induction len as [|len IH]; intros n; simpl; [done|].
  rewrite length_app, IH. simpl. lia.
Qed.

Lemma be_value_snoc (bs : list byte) (b : byte) :
  be_value (bs ++ [b]) = be_value bs * 256 + byte_to_Z b.
Proof. unfold be_value. by rewrite fold_left_app. Qed.

Lemma be_value_range (bs : list byte) :
  0 <= be_value bs < 256 ^ Z.of_nat (length bs).
Proof.
  induction bs as [|b bs IH] using rev_ind; [simpl; unfold be_value; simpl; lia|].
  rewrite be_value_snoc, length_app. simpl.
  replace (Z.of_nat (length bs + 1)) with (Z.of_nat (length bs) + 1) by lia.
  rewrite Z.pow_add_r by lia.
  pose proof (byte_to_Z_range b). lia.
Qed.

(** Reading back the digits of a number gives the number modulo the
    capacity of the digits. *)
Lemma be_value_be_bytes (len : nat) (n : Z) :
  be_value (be_bytes len n) = n mod 256 ^ Z.of_nat len.
Proof.
  revert n. induction len as [|len IH]; intros n.
  - simpl. unfold be_value. simpl. by rewrite Z.mod_1_r.
  - simpl be_bytes. rewrite be_value_snoc, IH, byte_to_Z_to_byte.
    replace (Z.of_nat (Datatypes.S len)) with (1 + Z.of_nat len) by lia.
    rewrite Z.pow_add_r by lia. change (256 ^ 1) with 256.
    assert (0 < 256 ^ Z.of_nat len) by (apply Z.pow_pos_nonneg; lia).
    rewrite Z.rem_mul_r by lia. lia.
Qed.

Lemma be_value_be_bytes_small (len : nat) (n : Z) :
  0 <= n < 256 ^ Z.of_nat len -> be_value (be_bytes len n) = n.
Proof. intros H. rewrite be_value_be_bytes. by apply Z.mod_small. Qed.

(** A leading zero byte does not change the number. *)
Lemma be_value_cons (b : byte) (bs : list byte) :
  be_value (b :: bs) = byte_to_Z b * 256 ^ Z.of_nat (length bs) + be_value bs.
Proof.
  induction bs as [|b' bs IH] using rev_ind.
  - unfold be_value. simpl. lia.
  - rewrite app_comm_cons, !be_value_snoc, IH, length_app. simpl.
    replace (Z.of_nat (length bs + 1)) with (Z.of_nat (length bs) + 1) by lia.
    rewrite Z.pow_add_r by lia. lia.
Qed.

(** Byte strings of one length that denote one number are equal. *)
Lemma be_value_inj (a b : list byte) :
  length a = length b -> be_value a = be_value b -> a = b.
Proof.
  revert b. induction a as [|x a IH] using rev_ind; intros b Hlen Hval.
  - destruct b; [done|]. simpl in Hlen. lia.
  - destruct b as [|y b _] using rev_ind.
    { rewrite length_app in Hlen. simpl in Hlen. lia. }
    rewrite !length_app in Hlen. simpl in Hlen.
    rewrite !be_value_snoc in Hval.
    pose proof (byte_to_Z_range x). pose proof (byte_to_Z_range y).
    assert (be_value a = be_value b /\ byte_to_Z x = byte_to_Z y) as [Ha Hx] by lia.
    f_equal; [apply IH; [lia|done] | f_equal; by apply byte_to_Z_inj].
Qed.

Lemma xor_bytes_length (out mask : list byte) :
  length (xor_bytes out mask) = length out.
Proof.
  revert mask. induction out as [|o out IH]; intros [|m mask]; simpl; auto.
Qed.

End BytesFacts.

(** ** math/big *)

Section BigFacts.

Lemma BitLen_nonneg (x : Z) : 0 <= big.BitLen x.
Proof.
  unfold big.BitLen. destruct (x =? 0); [lia|].
  pose proof (Z.log2_nonneg (Z.abs x)). lia.
Qed.

(** A number is below two to the power of its bit length. *)
Lemma BitLen_spec (x : Z) : Z.abs x < 2 ^ big.BitLen x.
Proof.
  unfold big.BitLen. destruct (Z.eqb_spec x 0) as [->|Hx]; [simpl; lia|].
  assert (0 < Z.abs x) as Hpos by lia.
  destruct (Z.log2_spec _ Hpos) as [_ H].
  by rewrite <- Z.add_1_r in H.
Qed.

(** A number of bit length at least one is at least two to the power of
    its bit length less one. *)
Lemma BitLen_lower (x : Z) : x <> 0 -> 2 ^ (big.BitLen x - 1) <= Z.abs x.
Proof.
  intros Hx. unfold big.BitLen. destruct (Z.eqb_spec x 0); [done|].
  assert (0 < Z.abs x) as Hpos by lia.
  destruct (Z.log2_spec _ Hpos) as [H _].
  by replace (Z.log2 (Z.abs x) + 1 - 1) with (Z.log2 (Z.abs x)) by lia.
Qed.

Lemma ByteLen_spec (x : Z) : Z.abs x < 256 ^ Z.of_nat (big.ByteLen x).
Proof.
  unfold big.ByteLen.
  pose proof (BitLen_nonneg x) as Hn. pose proof (BitLen_spec x) as Hs.
  rewrite Z2Nat.id by (apply Z.div_pos; lia).
  change 256 with (2 ^ 8). rewrite <- Z.pow_mul_r by (try apply Z.div_pos; lia).
  eapply Z.lt_le_trans; [exact Hs|].
  apply Z.pow_le_mono_r; [lia|].
  pose proof (Z.div_mod (big.BitLen x + 7) 8 ltac:(lia)).
  pose proof (Z.mod_pos_bound (big.BitLen x + 7) 8 ltac:(lia)). lia.
Qed.

Lemma Bytes_value (x : Z) : be_value (big.Bytes x) = Z.abs x.
Proof.
  unfold big.Bytes. apply be_value_be_bytes_small.
  pose proof (ByteLen_spec x). lia.
Qed.

Lemma FillBytes_length (len : nat) (x : Z) : length (big.FillBytes len x) = len.
Proof. apply be_bytes_length. Qed.

(** [Exp] with a non-zero modulus is the power modulo the absolute value
    of the modulus. *)
Lemma Exp_spec (x y m : Z) : m <> 0 -> big.Exp x y m = x ^ y mod Z.abs m.
Proof.
  intros Hm. unfold big.Exp. destruct (Z.eqb_spec m 0); [done|].
  apply Zpow_mod_correct. lia.
Qed.

End BigFacts.

(** ** The models against published test vectors *)

Section TestVectors.

(** FIPS 180-4, the one-block message "abc". *)
Example Sum256_abc :
  map byte_to_Z (sha256.Sum256 (list_byte_of_string "abc"))
  = [ 0xBA; 0x78; 0x16; 0xBF; 0x8F; 0x01; 0xCF; 0xEA;
      0x41; 0x41; 0x40; 0xDE; 0x5D; 0xAE; 0x22; 0x23;
      0xB0; 0x03; 0x61; 0xA3; 0x96; 0x17; 0x7A; 0x9C;
      0xB4; 0x10; 0xFF; 0x61; 0xF2; 0x00; 0x15; 0xAD ].
Proof. vm_compute. reflexivity. Qed.

(** FIPS 180-4, the two-block message of 56 characters. *)
Example Sum256_two_blocks :
  base64.EncodeToString
    (sha256.Sum256
       (list_byte_of_string
          "abcdbcdecdefdefgefghfghighijhijkijkljklmklmnlmnomnopnopq"))
  = "JI1qYdIGOLjlwCaTDD5gOaM85Flk/yFn9uzt1BnbBsE="%string.
Proof. vm_compute. reflexivity. Qed.

(** RFC 4648, section 10. *)
Example base64_foobar :
  map (fun s => base64.EncodeToString (list_byte_of_string s))
      [ ""; "f"; "fo"; "foo"; "foob"; "fooba"; "foobar" ]%string
  = [ ""; "Zg=="; "Zm8="; "Zm9v"; "Zm9vYg=="; "Zm9vYmE="; "Zm9vYmFy" ]%string.
Proof. vm_compute. reflexivity. Qed.

(** The check value of CRC-32C: the checksum of "123456789". *)
Example crc32c_check :
  gcpkms.crc32c (list_byte_of_string "123456789") = 0xE3069283.
Proof. vm_compute. reflexivity. Qed.

(** DER: a modulus with its top bit set takes a leading zero octet, and
    65537 is 01 00 01. *)
Example marshalPublicKey_small :
  map byte_to_Z
      (asn1.marshalPublicKey {| rsa.N := 0xC0FFEE; rsa.E := 65537 |})
  = [ 0x30; 0x0B; 0x02; 0x04; 0x00; 0xC0; 0xFF; 0xEE; 0x02; 0x03; 0x01; 0x00; 0x01 ].
Proof. vm_compute. reflexivity. Qed.

End TestVectors.

(** ** crypto/rsa *)

Section RsaFacts.

Lemma checkPub_valid (pub : rsa.PublicKey) :
  rsa.valid pub -> rsa.checkPub pub = None.
Proof.
  intros (_ & _ & HE). unfold rsa.checkPub.
  destruct (Z.ltb_spec (rsa.E pub) 2); [lia|].
  destruct (Z.ltb_spec (2 ^ 31 - 1) (rsa.E pub)); [lia|done].
Qed.

(** The ciphertext representative fits the buffer [FillBytes] is given:
    the call does not panic. *)
Lemma encrypt_fits (pub : rsa.PublicKey) (m : Z) :
  rsa.N pub <> 0 ->
  0 <= rsa.encrypt pub m < 256 ^ Z.of_nat (rsa.Size pub).
Proof.
  intros HN. unfold rsa.encrypt, rsa.Size. rewrite Exp_spec by done.
  pose proof (Z.mod_pos_bound (m ^ rsa.E pub) (Z.abs (rsa.N pub)) ltac:(lia)).
  pose proof (ByteLen_spec (rsa.N pub)). lia.
Qed.

(** Whenever [EncryptOAEP] returns a ciphertext, the ciphertext has the
    size of the modulus. *)
Lemma EncryptOAEP_length random pub msg label ct random' :
  rsa.EncryptOAEP random pub msg label = (Ok ct, random') ->
  length ct = rsa.Size pub.
Proof.
  unfold rsa.EncryptOAEP.
  destruct (rsa.checkPub pub); [done|].
  destruct (_ <? _); [done|].
  destruct (io.ReadFull random sha256.Size) as [[seed|err] random1]; [|done].
  intros [= <- _]. apply FillBytes_length.
Qed.

(** [EncryptOAEP] returns a ciphertext for a valid key, a message that
    leaves room for the padding, and a random source that delivers a
    seed. *)
Lemma EncryptOAEP_ok random pub msg label :
  rsa.valid pub ->
  Z.of_nat (length msg) <= Z.of_nat (rsa.Size pub) - 2 * 32 - 2 ->
  (32 <= length (io.pending random))%nat ->
  exists ct,
    rsa.EncryptOAEP random pub msg label
    = (Ok ct, {| io.pending := drop 32 (io.pending random);
                 io.fault := io.fault random |}).
Proof.
  intros Hvalid Hmsg Hrand. unfold rsa.EncryptOAEP.
  rewrite checkPub_valid by done.
  change (Z.of_nat sha256.Size) with 32.
  destruct (Z.ltb_spec (Z.of_nat (rsa.Size pub) - 2 * 32 - 2)
              (Z.of_nat (length msg))); [lia|].
  unfold io.ReadFull. change sha256.Size with 32%nat.
  destruct (Nat.leb_spec 32 (length (io.pending random))); [|lia].
  eexists. reflexivity.
Qed.

End RsaFacts.

(** ** Bit operations as arithmetic *)

Section BitFacts.

(** Or-ing a number below [2^n] into a multiple of [2^n] adds it. *)
Lemma lor_high_low (a b n : Z) :
  0 <= n -> 0 <= b < 2 ^ n -> Z.lor (a * 2 ^ n) b = a * 2 ^ n + b.
Proof.
  intros Hn Hb. rewrite <- Z.add_lor_land.
  assert (Z.land (a * 2 ^ n) b = 0) as ->; [|lia].
  apply Z.bits_inj'. intros i Hi. rewrite Z.land_spec, Z.bits_0.
  destruct (Z.lt_ge_cases i n) as [Hlt|Hge].
  - by rewrite Z.mul_pow2_bits_low.
  - destruct (Z.eq_dec b 0) as [->|Hb0]; [by rewrite Z.bits_0, andb_false_r|].
    rewrite (Z.bits_above_log2 b i); [apply andb_false_r|lia|].
    assert (Z.log2 b < n) by (apply Z.log2_lt_pow2; lia). lia.
Qed.

Lemma lor_shiftl (a b n : Z) :
  0 <= n -> 0 <= b < 2 ^ n -> Z.lor (Z.shiftl a n) b = a * 2 ^ n + b.
Proof. intros. rewrite Z.shiftl_mul_pow2 by done. by apply lor_high_low. Qed.

End BitFacts.

(** ** encoding/asn1: the DER encoding of a key determines the key *)

Section Asn1Facts.

Lemma lengthLength_bounds (n : Z) :
  0 <= n < 2 ^ 63 ->
  (1 <= asn1.lengthLength n <= 8)%nat /\
  n < 256 ^ Z.of_nat (asn1.lengthLength n).
Proof.
  intros Hn. unfold asn1.lengthLength.
  pose proof (ByteLen_spec n) as Hs. rewrite Z.abs_eq in Hs by lia.
  assert (Z.of_nat (big.ByteLen n) <= 8) as Hle.
  { unfold big.ByteLen. pose proof (BitLen_nonneg n).
    rewrite Z2Nat.id by (apply Z.div_pos; lia).
    assert (big.BitLen n <= 63).
    { destruct (Z.eq_dec n 0) as [->|Hn0]; [vm_compute; discriminate|].
      pose proof (BitLen_lower n Hn0) as Hl. rewrite Z.abs_eq in Hl by lia.
      destruct (Z.le_gt_cases (big.BitLen n) 63) as [|Hgt]; [done|].
      assert (2 ^ 63 <= 2 ^ (big.BitLen n - 1))
        by (apply Z.pow_le_mono_r; lia). lia. }
    assert ((big.BitLen n + 7) / 8 < 9)
      by (apply Z.div_lt_upper_bound; lia). lia. }
  split; [lia|].
  eapply Z.lt_le_trans; [exact Hs|].
  apply Z.pow_le_mono_r; lia.
Qed.

Lemma long_form_byte (ll : nat) :
  (ll <= 8)%nat ->
  byte_to_Z (Z_to_byte (Z.lor 0x80 (Z.of_nat ll))) = 128 + Z.of_nat ll.
Proof.
  intros Hll. rewrite byte_to_Z_to_byte.
  change 0x80 with (1 * 2 ^ 7). rewrite lor_high_low by lia.
  apply Z.mod_small. lia.
Qed.

(** An identifier-and-length prefix delimits the content that follows
    it: two encodings that agree have the same content and the same
    remainder. *)
Lemma appendTagAndLength_inj tag isCompound (x1 x2 r1 r2 : list byte) :
  Z.of_nat (length x1) < 2 ^ 63 ->
  Z.of_nat (length x2) < 2 ^ 63 ->
  asn1.appendTagAndLength tag isCompound (Z.of_nat (length x1)) ++ x1 ++ r1
  = asn1.appendTagAndLength tag isCompound (Z.of_nat (length x2)) ++ x2 ++ r2 ->
  x1 = x2 /\ r1 = r2.
Proof.
  intros H1 H2. unfold asn1.appendTagAndLength.
  set (n1 := Z.of_nat (length x1)) in *. set (n2 := Z.of_nat (length x2)) in *.
  assert (0 <= n1) by lia. assert (0 <= n2) by lia.
  destruct (lengthLength_bounds n1 ltac:(lia)) as [Hl1 Hb1].
  destruct (lengthLength_bounds n2 ltac:(lia)) as [Hl2 Hb2].
  simpl. intros Heq. injection Heq as Heq.
  assert (n1 = n2 -> x1 ++ r1 = x2 ++ r2 -> x1 = x2 /\ r1 = r2) as Hfin.
  { intros Hn. apply app_inj_1. lia. }
  destruct (Z.leb_spec 128 n1) as [Hn1|Hn1], (Z.leb_spec 128 n2) as [Hn2|Hn2];
    simpl in Heq; injection Heq as Hb Hrest.
  - apply (f_equal byte_to_Z) in Hb. rewrite !long_form_byte in Hb by lia.
    assert (asn1.lengthLength n1 = asn1.lengthLength n2) as Hll by lia.
    rewrite Hll in Hrest.
    apply app_inj_1 in Hrest as [Hlen Hrest]; [|by rewrite !be_bytes_length].
    apply Hfin; [|done].
    apply (f_equal be_value) in Hlen.
    rewrite !be_value_be_bytes_small in Hlen; [done|lia|rewrite <- Hll; lia].
  - apply (f_equal byte_to_Z) in Hb. rewrite long_form_byte in Hb by lia.
    rewrite byte_to_Z_to_byte, Z.mod_small in Hb by lia. lia.
  - apply (f_equal byte_to_Z) in Hb. rewrite long_form_byte in Hb by lia.
    rewrite byte_to_Z_to_byte, Z.mod_small in Hb by lia. lia.
  - apply (f_equal byte_to_Z) in Hb.
    rewrite !byte_to_Z_to_byte, !Z.mod_small in Hb by lia.
    by apply Hfin.
Qed.

Lemma appendTagAndLength_length tag isCompound (n : Z) :
  0 <= n < 2 ^ 63 ->
  (length (asn1.appendTagAndLength tag isCompound n) <= 10)%nat.
Proof.
  intros Hn. unfold asn1.appendTagAndLength.
  destruct (lengthLength_bounds n Hn) as [Hl _].
  destruct (128 <=? n); simpl; [rewrite be_bytes_length|]; lia.
Qed.

(** The content octets of a positive modulus denote the modulus. *)
Lemma makeBigInt_value (n : Z) : 0 < n -> be_value (asn1.makeBigInt n) = n.
Proof.
  intros Hn. unfold asn1.makeBigInt.
  destruct (Z.ltb_spec n 0); [lia|]. destruct (Z.eqb_spec n 0); [lia|].
  pose proof (Bytes_value n) as Hv. rewrite Z.abs_eq in Hv by lia.
  destruct (big.Bytes n) as [|b bs]; [done|].
  destruct (negb _); [|done].
  rewrite be_value_cons. change (byte_to_Z x00) with 0. lia.
Qed.

Lemma makeBigInt_length (n : Z) :
  0 < n -> Z.of_nat (length (asn1.makeBigInt n)) <= (big.BitLen n + 7) / 8 + 1.
Proof.
  intros Hn. unfold asn1.makeBigInt.
  destruct (Z.ltb_spec n 0); [lia|]. destruct (Z.eqb_spec n 0); [lia|].
  assert (Z.of_nat (length (big.Bytes n)) = (big.BitLen n + 7) / 8) as Hlen.
  { unfold big.Bytes. rewrite be_bytes_length. unfold big.ByteLen.
    pose proof (BitLen_nonneg n). rewrite Z2Nat.id; [done|].
    apply Z.div_pos; lia. }
  destruct (big.Bytes n) as [|b bs]; [simpl in *; lia|].
  destruct (negb _); simpl length in *; lia.
Qed.

(** The content octets of a non-negative exponent denote the
    exponent. *)
Lemma int64Encode_value (i : Z) : 0 <= i -> be_value (asn1.int64Encode i) = i.
Proof.
  intros Hi. unfold asn1.int64Encode, asn1.int64Len.
  destruct (Z.ltb_spec i 0); [lia|].
  apply be_value_be_bytes_small. split; [done|].
  pose proof (BitLen_nonneg i). pose proof (BitLen_spec i) as Hs.
  rewrite Z.abs_eq in Hs by lia.
  rewrite Z2Nat.id by (pose proof (Z.div_pos (big.BitLen i) 8); lia).
  change 256 with (2 ^ 8).
  rewrite <- Z.pow_mul_r by (pose proof (Z.div_pos (big.BitLen i) 8); lia).
  eapply Z.lt_le_trans; [exact Hs|]. apply Z.pow_le_mono_r; [lia|].
  pose proof (Z.div_mod (big.BitLen i) 8 ltac:(lia)).
  pose proof (Z.mod_pos_bound (big.BitLen i) 8 ltac:(lia)). lia.
Qed.

Lemma int64Encode_length (i : Z) :
  0 <= i < 2 ^ 63 -> Z.of_nat (length (asn1.int64Encode i)) <= 8.
Proof.
  intros Hi. unfold asn1.int64Encode, asn1.int64Len. rewrite be_bytes_length.
  destruct (Z.ltb_spec i 0); [lia|].
  pose proof (BitLen_nonneg i).
  rewrite Z2Nat.id by (pose proof (Z.div_pos (big.BitLen i) 8); lia).
  assert (big.BitLen i <= 63).
  { destruct (Z.eq_dec i 0) as [->|Hn0]; [vm_compute; discriminate|].
    pose proof (BitLen_lower i Hn0) as Hl. rewrite Z.abs_eq in Hl by lia.
    destruct (Z.le_gt_cases (big.BitLen i) 63) as [|Hgt]; [done|].
    assert (2 ^ 63 <= 2 ^ (big.BitLen i - 1))
      by (apply Z.pow_le_mono_r; lia). lia. }
  assert (big.BitLen i / 8 < 8) by (apply Z.div_lt_upper_bound; lia). lia.
Qed.

Lemma marshal_content_inj tag isCompound (x1 x2 : list byte) :
  Z.of_nat (length x1) < 2 ^ 63 ->
  Z.of_nat (length x2) < 2 ^ 63 ->
  asn1.appendTagAndLength tag isCompound (Z.of_nat (length x1)) ++ x1
  = asn1.appendTagAndLength tag isCompound (Z.of_nat (length x2)) ++ x2 ->
  x1 = x2.
Proof.
  intros H1 H2 Heq.
  rewrite <- (app_nil_r x1), <- (app_nil_r x2) in Heq.
  rewrite !length_app, !Nat.add_0_r in Heq.
  by apply appendTagAndLength_inj in Heq as [? _].
Qed.

(** The DER encodings of two valid keys are equal only when the keys
    have the same modulus and the same exponent. *)
Lemma marshalPublicKey_inj (k1 k2 : rsa.PublicKey) :
  rsa.valid k1 -> rsa.valid k2 ->
  asn1.marshalPublicKey k1 = asn1.marshalPublicKey k2 ->
  rsa.N k1 = rsa.N k2 /\ rsa.E k1 = rsa.E k2.
Proof.
  intros (HN1 & HB1 & HE1) (HN2 & HB2 & HE2).
  unfold asn1.marshalPublicKey, asn1.marshalInteger.
  pose proof (makeBigInt_length _ HN1) as Hn1.
  pose proof (makeBigInt_length _ HN2) as Hn2.
  pose proof (int64Encode_length (rsa.E k1) ltac:(lia)) as He1.
  pose proof (int64Encode_length (rsa.E k2) ltac:(lia)) as He2.
  assert ((big.BitLen (rsa.N k1) + 7) / 8 < 2 ^ 61) as Hq1
    by (apply Z.div_lt_upper_bound; lia).
  assert ((big.BitLen (rsa.N k2) + 7) / 8 < 2 ^ 61) as Hq2
    by (apply Z.div_lt_upper_bound; lia).
  set (c1 := asn1.makeBigInt (rsa.N k1)) in *.
  set (c2 := asn1.makeBigInt (rsa.N k2)) in *.
  set (e1 := asn1.int64Encode (rsa.E k1)) in *.
  set (e2 := asn1.int64Encode (rsa.E k2)) in *.
  pose proof (appendTagAndLength_length asn1.TagInteger false
                (Z.of_nat (length c1)) ltac:(lia)) as Hp1.
  pose proof (appendTagAndLength_length asn1.TagInteger false
                (Z.of_nat (length c2)) ltac:(lia)) as Hp2.
  pose proof (appendTagAndLength_length asn1.TagInteger false
                (Z.of_nat (length e1)) ltac:(lia)) as Hp3.
  pose proof (appendTagAndLength_length asn1.TagInteger false
                (Z.of_nat (length e2)) ltac:(lia)) as Hp4.
  intros Heq.
  apply marshal_content_inj in Heq;
    [|rewrite !length_app; lia|rewrite !length_app; lia].
  rewrite <- !app_assoc in Heq.
  apply appendTagAndLength_inj in Heq as [Hc Heq]; [|lia|lia].
  apply marshal_content_inj in Heq; [|lia|lia].
  split.
  - rewrite <- (makeBigInt_value (rsa.N k1)), <- (makeBigInt_value (rsa.N k2))
      by done. by f_equal.
  - rewrite <- (int64Encode_value (rsa.E k1)), <- (int64Encode_value (rsa.E k2))
      by lia. by f_equal.
Qed.

End Asn1Facts.

(** ** encoding/base64: the text determines the bytes *)

Section Base64Facts.

Lemma decodeMap_encode (i : Z) :
  0 <= i < 64 -> base64.decodeMap (base64.encode i) = i.
Proof.
  intros Hi. rewrite <- (Z2Nat.id i) by lia.
  assert (Z.to_nat i < 64)%nat as Hn by lia.
  generalize dependent (Z.to_nat i). clear i Hi. intros n Hn.
  do 64 (destruct n as [|n]; [reflexivity|]). lia.
Qed.

Lemma encode_inj (i j : Z) :
  0 <= i < 64 -> 0 <= j < 64 -> base64.encode i = base64.encode j -> i = j.
Proof.
  intros Hi Hj H. apply (f_equal base64.decodeMap) in H.
  by rewrite !decodeMap_encode in H.
Qed.

Lemma encode_not_padding (i : Z) :
  0 <= i < 64 -> base64.encode i <> base64.StdPadding.
Proof.
  intros Hi H. apply (f_equal base64.decodeMap) in H.
  rewrite decodeMap_encode in H by done.
  change (base64.decodeMap base64.StdPadding) with 255 in H. lia.
Qed.

(** The six bits of [val] from bit [k] on. *)
Lemma sextet_spec (val k : Z) :
  0 <= k -> Z.land (Z.shiftr val k) 0x3F = (val / 2 ^ k) mod 64.
Proof.
  intros Hk. rewrite Z.shiftr_div_pow2 by done.
  change 0x3F with (Z.ones 6). by rewrite Z.land_ones.
Qed.

Lemma sextet0_spec (val : Z) : Z.land val 0x3F = val mod 64.
Proof. change 0x3F with (Z.ones 6). by rewrite Z.land_ones. Qed.

Lemma sextet_range (x : Z) : 0 <= Z.land x 0x3F < 64.
Proof. rewrite sextet0_spec. apply Z.mod_pos_bound. lia. Qed.

(** The 24-bit value of a group of three bytes, and of the final groups
    of two bytes and of one byte. *)
Lemma group3_val (b0 b1 b2 : byte) :
  Z.lor (Z.lor (Z.shiftl (byte_to_Z b0) 16) (Z.shiftl (byte_to_Z b1) 8))
        (byte_to_Z b2)
  = byte_to_Z b0 * 65536 + byte_to_Z b1 * 256 + byte_to_Z b2.
Proof.
  pose proof (byte_to_Z_range b0). pose proof (byte_to_Z_range b1).
  pose proof (byte_to_Z_range b2).
  rewrite (Z.shiftl_mul_pow2 (byte_to_Z b1)) by lia.
  rewrite lor_shiftl by lia.
  replace (byte_to_Z b0 * 2 ^ 16 + byte_to_Z b1 * 2 ^ 8)
    with ((byte_to_Z b0 * 256 + byte_to_Z b1) * 2 ^ 8) by lia.
  rewrite lor_high_low by lia. lia.
Qed.

Lemma group2_val (b0 b1 : byte) :
  Z.lor (Z.shiftl (byte_to_Z b0) 16) (Z.shiftl (byte_to_Z b1) 8)
  = byte_to_Z b0 * 65536 + byte_to_Z b1 * 256.
Proof.
  pose proof (byte_to_Z_range b0). pose proof (byte_to_Z_range b1).
  rewrite (Z.shiftl_mul_pow2 (byte_to_Z b1)) by lia.
  rewrite lor_shiftl by lia. lia.
Qed.

Lemma group1_val (b0 : byte) :
  Z.shiftl (byte_to_Z b0) 16 = byte_to_Z b0 * 65536.
Proof. rewrite Z.shiftl_mul_pow2 by lia. lia. Qed.

Lemma encode_sextet_inj (x y : Z) :
  base64.encode (Z.land x 0x3F) = base64.encode (Z.land y 0x3F) ->
  Z.land x 0x3F = Z.land y 0x3F.
Proof. apply encode_inj; apply sextet_range. Qed.

(** Lists in steps of three. *)
Lemma list_ind3 {A} (P : list A -> Prop) :
  P [] -> (forall a, P [a]) -> (forall a b, P [a; b]) ->
  (forall a b c l, P l -> P (a :: b :: c :: l)) ->
  forall l, P l.
Proof.
  intros H0 H1 H2 H3. fix IH 1.
  intros [|a [|b [|c l]]]; [exact H0 | exact (H1 a) | exact (H2 a b) |].
  apply H3. apply IH.
Qed.

Ltac sextets H :=
  repeat match type of H with
         | _ :: _ = _ :: _ =>
             let Hc := fresh "Hc" in injection H as Hc H
         end.

(** [Encode] is injective. *)
Lemma Encode_inj (l1 l2 : list byte) :
  base64.Encode l1 = base64.Encode l2 -> l1 = l2.
Proof.
  revert l2. induction l1 as [|a|a b|a b c l1 IH] using list_ind3;
    intros [|a' [|b' [|c' l2]]] H; cbn [base64.Encode] in H;
    try discriminate H; try reflexivity; sextets H;
    repeat match goal with
           | Hc : base64.StdPadding = base64.encode _ |- _ =>
               symmetry in Hc; by apply encode_not_padding in Hc;
                 [|apply sextet_range]
           | Hc : base64.encode _ = base64.StdPadding |- _ =>
               by apply encode_not_padding in Hc; [|apply sextet_range]
           | Hc : base64.encode _ = base64.encode _ |- _ =>
               apply encode_sextet_inj in Hc
           end.
  - (* one byte against one byte *)
    rewrite !group1_val, !sextet_spec in * by lia.
    pose proof (byte_to_Z_range a). pose proof (byte_to_Z_range a').
    f_equal. apply byte_to_Z_inj.
    change (2 ^ 18) with 262144 in *. change (2 ^ 12) with 4096 in *.
    Z.div_mod_to_equations. lia.
  - (* two bytes against two bytes *)
    rewrite !group2_val, !sextet_spec in * by lia.
    pose proof (byte_to_Z_range a). pose proof (byte_to_Z_range a').
    pose proof (byte_to_Z_range b). pose proof (byte_to_Z_range b').
    change (2 ^ 18) with 262144 in *. change (2 ^ 12) with 4096 in *.
    change (2 ^ 6) with 64 in *.
    assert (byte_to_Z a = byte_to_Z a' /\ byte_to_Z b = byte_to_Z b') as [Ha Hb]
      by (Z.div_mod_to_equations; lia).
    apply byte_to_Z_inj in Ha, Hb. by subst.
  - (* a full group against a full group *)
    rewrite !group3_val, ?sextet_spec, ?sextet0_spec in * by lia.
    pose proof (byte_to_Z_range a). pose proof (byte_to_Z_range a').
    pose proof (byte_to_Z_range b). pose proof (byte_to_Z_range b').
    pose proof (byte_to_Z_range c). pose proof (byte_to_Z_range c').
    change (2 ^ 18) with 262144 in *. change (2 ^ 12) with 4096 in *.
    change (2 ^ 6) with 64 in *.
    assert (byte_to_Z a = byte_to_Z a' /\ byte_to_Z b = byte_to_Z b'
            /\ byte_to_Z c = byte_to_Z c') as (Ha & Hb & Hc')
      by (Z.div_mod_to_equations; lia).
    apply byte_to_Z_inj in Ha, Hb, Hc'. subst. f_equal. f_equal. f_equal.
    by apply IH.
Qed.

Lemma EncodeToString_inj (l1 l2 : list byte) :
  base64.EncodeToString l1 = base64.EncodeToString l2 -> l1 = l2.
Proof.
  unfold base64.EncodeToString. intros H. apply Encode_inj.
  rewrite <- (list_ascii_of_string_of_list_ascii (base64.Encode l1)),
          <- (list_ascii_of_string_of_list_ascii (base64.Encode l2)).
  by rewrite H.
Qed.

End Base64Facts.

(** ** crypto/sha256: digests are 32 bytes *)

Section ShaFacts.

Lemma Sum256_length (data : list byte) : length (sha256.Sum256 data) = 32%nat.
Proof.
  unfold sha256.Sum256, sha256.digest_bytes.
  by rewrite !length_app, !be_bytes_length.
Qed.

Lemma Sum256_value_range (data : list byte) :
  0 <= be_value (sha256.Sum256 data) < 2 ^ 256.
Proof.
  pose proof (be_value_range (sha256.Sum256 data)) as H.
  rewrite Sum256_length in H. exact H.
Qed.

(** Two digests that denote the same number are the same digest. *)
Lemma Sum256_value_inj (d1 d2 : list byte) :
  be_value (sha256.Sum256 d1) = be_value (sha256.Sum256 d2) ->
  sha256.Sum256 d1 = sha256.Sum256 d2.
Proof. apply be_value_inj. by rewrite !Sum256_length. Qed.

End ShaFacts.

(** ** The pigeonhole principle on intervals of integers *)

Section Pigeonhole.

Lemma bounded_search (f : Z -> Z) (h n : Z) :
  0 <= n ->
  (exists i, 0 <= i <= n /\ f i = h) \/ (forall i, 0 <= i <= n -> f i <> h).
Proof.
  revert n. apply natlike_ind.
  - destruct (Z.eq_dec (f 0) h) as [Heq|Hne].
    + left. exists 0. split; [lia|done].
    + right. intros i Hi. by replace i with 0 by lia.
  - intros n Hn [(i & Hi & Heq)|Hnone].
    + left. exists i. split; [lia|done].
    + destruct (Z.eq_dec (f (Z.succ n)) h) as [Heq|Hne].
      * left. exists (Z.succ n). split; [lia|done].
      * right. intros i Hi.
        destruct (Z.eq_dec i (Z.succ n)) as [->|]; [done|]. apply Hnone. lia.
Qed.

(** [n + 1] pigeons in [n] holes: two of them share a hole. *)
Lemma pigeonhole (n : Z) :
  0 <= n ->
  forall f : Z -> Z,
    (forall i, 0 <= i <= n -> 0 <= f i < n) ->
    exists i j, 0 <= i < j /\ j <= n /\ f i = f j.
Proof.
  revert n. apply (natlike_ind (fun n => forall f : Z -> Z,
    (forall i, 0 <= i <= n -> 0 <= f i < n) ->
    exists i j, 0 <= i < j /\ j <= n /\ f i = f j)).
  - intros f Hf. specialize (Hf 0 ltac:(lia)). lia.
  - intros n Hn IH f Hf.
    set (h := f (Z.succ n)).
    destruct (bounded_search f h n Hn) as [(i & Hi & Heq)|Hnone].
    + exists i, (Z.succ n). split; [lia|]. split; [lia|done].
    + set (g := fun i => if f i <? h then f i else f i - 1).
      assert (forall i, 0 <= i <= n -> 0 <= g i < n) as Hg.
      { intros i Hi. unfold g.
        pose proof (Hf i ltac:(lia)). pose proof (Hnone i Hi).
        pose proof (Hf (Z.succ n) ltac:(lia)). fold h in H1.
        destruct (Z.ltb_spec (f i) h); lia. }
      destruct (IH g Hg) as (i & j & Hij & Hj & Heq).
      exists i, j. split; [done|]. split; [lia|].
      pose proof (Hnone i ltac:(lia)). pose proof (Hnone j ltac:(lia)).
      unfold g in Heq.
      destruct (Z.ltb_spec (f i) h), (Z.ltb_spec (f j) h); lia.
Qed.

End Pigeonhole.

(** ** hash/crc32: checksums are 32-bit values *)

Section CrcFacts.

Lemma lxor_range (a b n : Z) :
  0 <= n -> 0 <= a < 2 ^ n -> 0 <= b < 2 ^ n -> 0 <= Z.lxor a b < 2 ^ n.
Proof.
  intros Hn Ha Hb. split; [apply Z.lxor_nonneg; lia|].
  destruct (Z.eq_dec (Z.lxor a b) 0) as [->|Hne]; [lia|].
  assert (0 < Z.lxor a b)
    by (pose proof (proj2 (Z.lxor_nonneg a b) ltac:(lia)); lia).
  apply Z.log2_lt_pow2; [done|].
  pose proof (Z.log2_lxor a b ltac:(lia) ltac:(lia)) as Hl.
  assert (Z.log2 a < n).
  { destruct (Z.eq_dec a 0) as [->|]; [|apply Z.log2_lt_pow2; lia].
    destruct (Z.eq_dec b 0) as [->|]; [by rewrite Z.lxor_0_l in Hne|].
    assert (0 < n); [|simpl; lia].
    destruct (Z.eq_dec n 0) as [->|]; [simpl in Hb; lia|lia]. }
  assert (Z.log2 b < n).
  { destruct (Z.eq_dec b 0) as [->|]; [|apply Z.log2_lt_pow2; lia].
    destruct (Z.eq_dec a 0) as [->|]; [by rewrite Z.lxor_0_l in Hne|].
    assert (0 < n); [|simpl; lia].
    destruct (Z.eq_dec n 0) as [->|]; [simpl in Ha; lia|lia]. }
  lia.
Qed.

Lemma shiftr_range (a k n : Z) :
  0 <= k -> 0 <= a < 2 ^ n -> 0 <= Z.shiftr a k < 2 ^ n.
Proof.
  intros Hk Ha. rewrite Z.shiftr_div_pow2 by done.
  assert (0 < 2 ^ k) by (by apply Z.pow_pos_nonneg).
  split; [apply Z.div_pos; lia|].
  eapply Z.le_lt_trans; [|apply Ha].
  apply Z.div_le_upper_bound; [done|]. nia.
Qed.

Lemma populate_range (n : nat) (poly crc : Z) :
  0 <= poly < 2 ^ 32 -> 0 <= crc < 2 ^ 32 ->
  0 <= crc32.populate n poly crc < 2 ^ 32.
Proof.
  intros Hp. revert crc. induction n as [|n IH]; intros crc Hc; simpl; [done|].
  apply IH. destruct (_ =? _).
  - apply lxor_range; [lia| |done]. apply shiftr_range; [lia|done].
  - apply shiftr_range; [lia|done].
Qed.

Lemma MakeTable_range (poly : Z) (i : nat) :
  0 <= poly < 2 ^ 32 -> 0 <= nth i (crc32.MakeTable poly) 0 < 2 ^ 32.
Proof.
  intros Hp. unfold crc32.MakeTable.
  destruct (Nat.lt_ge_cases i 256) as [Hi|Hi].
  - rewrite (nth_indep _ 0 (crc32.populate 8 poly (Z.of_nat 0)))
      by (by rewrite length_map, length_seq).
    rewrite (map_nth (fun i => crc32.populate 8 poly (Z.of_nat i))).
    rewrite seq_nth by done. apply populate_range; [done|]. simpl. lia.
  - rewrite nth_overflow by (by rewrite length_map, length_seq). lia.
Qed.

Lemma Update_range (crc poly : Z) (p : list byte) :
  0 <= poly < 2 ^ 32 -> 0 <= crc < 2 ^ 32 ->
  0 <= crc32.Update crc (crc32.MakeTable poly) p < 2 ^ 32.
Proof.
  intros Hp Hc. unfold crc32.Update.
  apply lxor_range; [lia| |lia].
  assert (0 <= Z.lxor crc 0xFFFFFFFF < 2 ^ 32) as Hstart
    by (apply lxor_range; lia).
  revert Hstart. generalize (Z.lxor crc 0xFFFFFFFF). clear crc Hc.
  induction p as [|v p IH]; intros crc Hc; cbn [fold_left]; [exact Hc|].
  apply IH. apply lxor_range; [lia| |].
  - apply MakeTable_range. exact Hp.
  - apply shiftr_range; [lia|exact Hc].
Qed.

End CrcFacts.
(** ** The scan of [Unwrap] *)

Section UnwrapFacts.

Context {S : Type}.
Implicit Types (c : gcpkms.client S) (w : gcpkms.world S).
Implicit Types (stanza : age.Stanza) (stanzas pre post : list age.Stanza).

Import gcpkms.

Lemma after_nil w : after w (remote w) [] = w.
Proof. destruct w; unfold after; simpl. by rewrite app_nil_r. Qed.

Lemma after_after w s s' evs evs' :
  after (after w s evs) s' evs' = after w s' (evs ++ evs').
Proof. unfold after; simpl. by rewrite app_assoc. Qed.

(** A stanza of another type is skipped without any event. *)
Lemma Unwrap_other_type c stanza stanzas w :
  age.Type_ stanza <> "kms-rsa-oaep-sha256"%string ->
  Unwrap c (stanza :: stanzas) w = Unwrap c stanzas w.
Proof.
  intros Hty. simpl.
  destruct (String.eqb_spec (age.Type_ stanza) "kms-rsa-oaep-sha256"); [done|].
  reflexivity.
Qed.

(** A stanza of the recognized type whose argument list is not of length
    one ends the scan with an error, and nothing else happens. *)
Lemma Unwrap_malformed c stanza stanzas w :
  age.Type_ stanza = "kms-rsa-oaep-sha256"%string ->
  length (age.Args stanza) <> 1%nat ->
  Unwrap c (stanza :: stanzas) w = (Err ErrInvalidRecipient, w).
Proof.
  intros Hty Hlen. simpl. rewrite Hty. simpl.
  destruct (Nat.eqb_spec (length (age.Args stanza)) 1); [done|].
  reflexivity.
Qed.

(** A stanza of the recognized type that the registry does not resolve
    costs one registry read, and the scan goes on. *)
Lemma Unwrap_unresolved c stanza stanzas w id :
  age.Type_ stanza = "kms-rsa-oaep-sha256"%string ->
  age.Args stanza = [id] ->
  nameByKeyID c !! id = None ->
  Unwrap c (stanza :: stanzas) w
  = Unwrap c stanzas (after w (remote w) [EvRegistryLookup id]).
Proof.
  intros Hty Hargs Hnone. simpl. rewrite Hty, Hargs. simpl.
  unfold bind, lookup_nameByKeyID, bind, log, ret. simpl.
  rewrite Hnone. reflexivity.
Qed.

(** A stanza of the recognized type that the registry resolves: one
    registry read, one decrypt call, and the outcome of that call is the
    outcome of [Unwrap], whatever stanzas follow. *)
Lemma Unwrap_resolved c stanza stanzas w id name :
  age.Type_ stanza = "kms-rsa-oaep-sha256"%string ->
  age.Args stanza = [id] ->
  nameByKeyID c !! id = Some name ->
  Unwrap c (stanza :: stanzas) w
  = let req := decrypt_request name stanza in
    let evs := [EvRegistryLookup id; EvAsymmetricDecrypt req] in
    match kms.AsymmetricDecrypt (kmsClient c) req (remote w) with
    | (Ok resp, s) => (Ok (kmspb.Plaintext resp), after w s evs)
    | (Err err, s) => (Err err, after w s evs)
    end.
Proof.
  intros Hty Hargs Hsome. simpl. rewrite Hty, Hargs. simpl.
  unfold bind, lookup_nameByKeyID, call_AsymmetricDecrypt, bind, log, ret,
    remote_call, after, decrypt_request. simpl.
  rewrite Hsome. simpl.
  destruct (kms.AsymmetricDecrypt _ _ _) as [[resp|err] s]; simpl;
    by rewrite <- app_assoc.
Qed.

(** The scan over a prefix of stanzas that are passed over leaves the
    service as it is and records the registry reads. *)
Lemma Unwrap_passed_over c pre stanzas w :
  Forall (passed_over c) pre ->
  Unwrap c (pre ++ stanzas) w
  = Unwrap c stanzas (after w (remote w) (scan_events pre)).
Proof.
  intros Hpre. revert w.
  induction Hpre as [|stanza pre Hst _ IH]; intros w.
  - simpl. by rewrite after_nil.
  - change ((stanza :: pre) ++ stanzas) with (stanza :: (pre ++ stanzas)).
    destruct Hst as [Hty | (Hty & id & Hargs & Hnone)].
    + rewrite Unwrap_other_type by done. rewrite IH. simpl.
      destruct (String.eqb_spec (age.Type_ stanza) "kms-rsa-oaep-sha256");
        [done|]. reflexivity.
    + rewrite (Unwrap_unresolved _ _ _ _ id) by done. rewrite IH.
      simpl. rewrite Hty, Hargs. simpl.
      by rewrite after_after.
Qed.

(** The first stanza that the registry resolves decides the outcome. *)
Lemma Unwrap_first_resolved c pre stanza post w id name :
  Forall (passed_over c) pre ->
  age.Type_ stanza = "kms-rsa-oaep-sha256"%string ->
  age.Args stanza = [id] ->
  nameByKeyID c !! id = Some name ->
  Unwrap c (pre ++ stanza :: post) w
  = let req := decrypt_request name stanza in
    let evs := scan_events pre ++ [EvRegistryLookup id; EvAsymmetricDecrypt req] in
    match kms.AsymmetricDecrypt (kmsClient c) req (remote w) with
    | (Ok resp, s) => (Ok (kmspb.Plaintext resp), after w s evs)
    | (Err err, s) => (Err err, after w s evs)
    end.
Proof.
  intros Hpre Hty Hargs Hsome.
  rewrite Unwrap_passed_over by done.
  rewrite (Unwrap_resolved _ _ _ _ id name) by done. simpl.
  destruct (kms.AsymmetricDecrypt _ _ _) as [[resp|err] s];
    by rewrite after_after.
Qed.

Lemma scan_events_no_decrypt stanzas :
  decrypt_calls (scan_events stanzas) = 0%nat.
Proof.
  unfold decrypt_calls.
  induction stanzas as [|stanza stanzas IH]; [done|]. simpl.
  destruct (String.eqb _ _); [|done].
  rewrite filter_cons_False; [done|]. simpl. done.
Qed.

Lemma decrypt_calls_app t1 t2 :
  decrypt_calls (t1 ++ t2) = (decrypt_calls t1 + decrypt_calls t2)%nat.
Proof. unfold decrypt_calls. by rewrite filter_app, length_app. Qed.

(** Whatever the stanzas, [Unwrap] adds at most one decrypt call to the
    trace. *)
Lemma Unwrap_decrypt_calls c stanzas w :
  exists evs,
    trace (Unwrap c stanzas w).2 = trace w ++ evs /\
    (decrypt_calls evs <= 1)%nat.
Proof.
  revert w. induction stanzas as [|stanza stanzas IH]; intros w.
  - exists []. simpl. split; [by rewrite app_nil_r | by auto].
  - simpl.
    destruct (String.eqb (age.Type_ stanza) "kms-rsa-oaep-sha256"); simpl;
      [|apply IH].
    destruct (length (age.Args stanza) =? 1)%nat; simpl;
      [|exists []; simpl; split; [by rewrite app_nil_r | by auto]].
    unfold bind, lookup_nameByKeyID, call_AsymmetricDecrypt, bind, log, ret,
      remote_call. simpl.
    destruct (nameByKeyID c !! _) as [name|].
    + simpl. destruct (kms.AsymmetricDecrypt _ _ _) as [[resp|err] s]; simpl;
        eexists [_; _]; (split; [by rewrite <- app_assoc|]);
        unfold decrypt_calls; simpl; lia.
    + match goal with |- context [Unwrap c stanzas ?w'] =>
        destruct (IH w') as (evs & Htr & Hle) end.
      simpl in Htr. eexists (_ :: evs). split.
      * rewrite Htr. by rewrite <- app_assoc.
      * unfold decrypt_calls in *. rewrite filter_cons_False; [done|].
        simpl. done.
Qed.

End UnwrapFacts.

(** ** Claims about [Unwrap] *)

Section UnwrapClaims.

Context {S : Type}.
Implicit Types (c : gcpkms.client S) (w : gcpkms.world S).
Implicit Types (stanza : age.Stanza) (stanzas pre post : list age.Stanza).

Import gcpkms.

(** C4.  When the scan reaches a stanza of the recognized type whose
    argument list does not have exactly one element (every stanza before
    it having been passed over), [Unwrap] fails with the
    invalid-recipient error, whatever stanzas follow.  The only events
    are the registry reads made for the earlier stanzas: the malformed
    stanza causes no registry read and no decrypt call, and the service
    is left as it was.  At the head of the list the outcome is the same
    for every client, that is, for every registry and every service. *)
Theorem Unwrap_malformed_is_hard_error c pre stanza post w :
  Forall (passed_over c) pre ->
  age.Type_ stanza = "kms-rsa-oaep-sha256"%string ->
  length (age.Args stanza) <> 1%nat ->
  Unwrap c (pre ++ stanza :: post) w
    = (Err ErrInvalidRecipient, after w (remote w) (scan_events pre))
  /\ decrypt_calls (scan_events pre) = 0%nat
  /\ (forall (c' : client S) w', Unwrap c' (stanza :: post) w'
                                 = (Err ErrInvalidRecipient, w')).
Proof.
  intros Hpre Hty Hlen. split; [|split].
  - rewrite Unwrap_passed_over by done. by apply Unwrap_malformed.
  - apply scan_events_no_decrypt.
  - intros c' w'. by apply Unwrap_malformed.
Qed.

(** C5.  When every stanza is passed over (it is of another type, or of
    the recognized type with one argument that the registry does not
    hold), [Unwrap] returns [ErrIncorrectIdentity]; the events are
    registry reads only, there is no decrypt call, and the service is
    left as it was. *)
Theorem Unwrap_incorrect_identity c stanzas w :
  Forall (passed_over c) stanzas ->
  Unwrap c stanzas w
    = (Err ErrIncorrectIdentity, after w (remote w) (scan_events stanzas))
  /\ decrypt_calls (scan_events stanzas) = 0%nat
  /\ Forall (fun ev => is_RegistryLookup ev = true) (scan_events stanzas).
Proof.
  intros Hall. split; [|split].
  - rewrite <- (app_nil_r stanzas) at 1.
    by rewrite Unwrap_passed_over.
  - apply scan_events_no_decrypt.
  - clear. induction stanzas as [|stanza stanzas IH]; simpl; [done|].
    destruct (String.eqb _ _); [|done]. by constructor.
Qed.

(** C6.  [Unwrap] makes at most one decrypt call, whatever the stanzas.
    At the first stanza of the recognized type that the registry
    resolves (the stanzas before it having been passed over) it makes
    exactly one call, and the outcome of the call is the outcome of
    [Unwrap]: the plaintext of the response, or the error of the
    service as it is.  The stanzas after that one play no part. *)
Theorem Unwrap_single_decrypt_call :
  (forall c stanzas w, exists evs,
      trace (Unwrap c stanzas w).2 = trace w ++ evs /\
      (decrypt_calls evs <= 1)%nat)
  /\
  (forall c pre stanza post w id name,
      Forall (passed_over c) pre ->
      age.Type_ stanza = "kms-rsa-oaep-sha256"%string ->
      age.Args stanza = [id] ->
      nameByKeyID c !! id = Some name ->
      let req := decrypt_request name stanza in
      let evs := scan_events pre ++ [EvRegistryLookup id; EvAsymmetricDecrypt req] in
      decrypt_calls evs = 1%nat /\
      Unwrap c (pre ++ stanza :: post) w
      = match kms.AsymmetricDecrypt (kmsClient c) req (remote w) with
        | (Ok resp, s) => (Ok (kmspb.Plaintext resp), after w s evs)
        | (Err err, s) => (Err err, after w s evs)
        end).
Proof.
  split; [apply Unwrap_decrypt_calls|].
  intros c pre stanza post w id name Hpre Hty Hargs Hsome req evs. split.
  - subst evs. rewrite decrypt_calls_app, scan_events_no_decrypt. done.
  - by apply Unwrap_first_resolved.
Qed.

(** C9.  For the stanza that is matched, the request sent to the service
    carries the stanza body as ciphertext together with the CRC-32 of
    the body over the Castagnoli polynomial (a 32-bit value, wrapped).
    When the service answers, the plaintext of the answer is returned as
    it is: the answer is any response at all, so nothing is required of
    the plaintext checksum it carries. *)
Theorem Unwrap_sends_crc32c_and_trusts_response c pre stanza post w id name :
  Forall (passed_over c) pre ->
  age.Type_ stanza = "kms-rsa-oaep-sha256"%string ->
  age.Args stanza = [id] ->
  nameByKeyID c !! id = Some name ->
  exists req,
    trace (Unwrap c (pre ++ stanza :: post) w).2
      = trace w ++ scan_events pre
          ++ [EvRegistryLookup id; EvAsymmetricDecrypt req]
    /\ kmspb.AsymmetricDecryptRequest_Name req = name
    /\ kmspb.Ciphertext req = age.Body stanza
    /\ kmspb.CiphertextCrc32C req
       = Some (crc32.Checksum (age.Body stanza) (crc32.MakeTable 0x82f63b78))
    /\ (forall resp s,
          kms.AsymmetricDecrypt (kmsClient c) req (remote w) = (Ok resp, s) ->
          (Unwrap c (pre ++ stanza :: post) w).1 = Ok (kmspb.Plaintext resp)).
Proof.
  intros Hpre Hty Hargs Hsome.
  exists (decrypt_request name stanza).
  rewrite (Unwrap_first_resolved c pre stanza post w id name) by done.
  simpl.
  split; [|split; [done|split; [done|split; [done|]]]].
  - by destruct (kms.AsymmetricDecrypt _ _ _) as [[resp|err] s].
  - intros resp s Hresp. by rewrite Hresp.
Qed.

End UnwrapClaims.

(** *** The claims about [Unwrap], run on the test doubles *)

Module UnwrapWitnesses.

Import gcpkms Fixture.

Lemma passed_over_x25519 : passed_over cl x25519.
Proof. left. discriminate. Defined.

Lemma passed_over_stranger : passed_over cl stranger.
Proof. right. split; [reflexivity|]. exists "id-C"%string. split; reflexivity. Defined.

Lemma Unwrap_malformed_is_hard_error_witness :
  Unwrap cl ([x25519; stranger] ++ two_args :: [for_B]) w0
    = (Err ErrInvalidRecipient,
       after w0 (remote w0) (scan_events [x25519; stranger]))
  /\ decrypt_calls (scan_events [x25519; stranger]) = 0%nat
  /\ (forall (c' : client service) w',
        Unwrap c' (two_args :: [for_B]) w' = (Err ErrInvalidRecipient, w')).
Proof.
  apply (Unwrap_malformed_is_hard_error cl [x25519; stranger] two_args [for_B] w0).
  - constructor; [apply passed_over_x25519|].
    constructor; [apply passed_over_stranger|]. constructor.
  - reflexivity.
  - simpl. lia.
Defined.

Lemma Unwrap_incorrect_identity_witness :
  Unwrap cl [x25519; stranger; x25519] w0
    = (Err ErrIncorrectIdentity,
       after w0 (remote w0) (scan_events [x25519; stranger; x25519]))
  /\ decrypt_calls (scan_events [x25519; stranger; x25519]) = 0%nat
  /\ Forall (fun ev => is_RegistryLookup ev = true)
            (scan_events [x25519; stranger; x25519]).
Proof.
  apply (Unwrap_incorrect_identity cl [x25519; stranger; x25519] w0).
  constructor; [apply passed_over_x25519|].
  constructor; [apply passed_over_stranger|].
  constructor; [apply passed_over_x25519|]. constructor.
Defined.

(** The stanza for key A comes first among the resolved ones: the
    service refuses it, and the stanza for key B, which it would have
    decrypted, is not tried. *)
Lemma Unwrap_single_decrypt_call_witness :
  Unwrap cl ([x25519; stranger] ++ for_A :: [for_B]) w0
  = (Err (ErrCollaborator "permission denied"),
     {| remote := 1%nat;
        trace := [EvRegistryLookup "id-C"; EvRegistryLookup "id-A";
                  EvAsymmetricDecrypt (decrypt_request "keys/A" for_A)] |}).
Proof.
  pose proof (proj2 (@Unwrap_single_decrypt_call service)
                cl [x25519; stranger] for_A [for_B] w0 "id-A"%string "keys/A"%string) as H.
  simpl in H. apply H.
  - constructor; [apply passed_over_x25519|].
    constructor; [apply passed_over_stranger|]. constructor.
  - reflexivity.
  - reflexivity.
  - reflexivity.
Defined.

(** The service answers with a checksum (0) that is not the checksum of
    the plaintext; the plaintext is returned all the same. *)
Lemma Unwrap_sends_crc32c_and_trusts_response_witness :
  exists req,
    trace (Unwrap cl ([x25519] ++ for_B :: [for_A]) w0).2
      = trace w0 ++ scan_events [x25519]
          ++ [EvRegistryLookup "id-B"; EvAsymmetricDecrypt req]
    /\ kmspb.AsymmetricDecryptRequest_Name req = "keys/B"%string
    /\ kmspb.Ciphertext req = age.Body for_B
    /\ kmspb.CiphertextCrc32C req
       = Some (crc32.Checksum (age.Body for_B) (crc32.MakeTable 0x82f63b78))
    /\ (forall resp s,
          kms.AsymmetricDecrypt (kmsClient cl) req (remote w0) = (Ok resp, s) ->
          (Unwrap cl ([x25519] ++ for_B :: [for_A]) w0).1
          = Ok (kmspb.Plaintext resp)).
Proof.
  apply (Unwrap_sends_crc32c_and_trusts_response
           cl [x25519] for_B [for_A] w0 "id-B"%string "keys/B"%string).
  - constructor; [apply passed_over_x25519|]. constructor.
  - reflexivity.
  - reflexivity.
  - reflexivity.
Defined.

End UnwrapWitnesses.


(** ** More about [Unwrap] *)

Section UnwrapMore.

Context {S : Type}.
Implicit Types (c : gcpkms.client S) (w : gcpkms.world S).
Implicit Types (stanza : age.Stanza) (stanzas pre post : list age.Stanza).

Import gcpkms.

(** Every list of stanzas is passed over as a whole, or has a first
    stanza that is not passed over: one of the recognized type that is
    malformed or that the registry resolves. *)
Lemma stanzas_split c stanzas :
  Forall (passed_over c) stanzas \/
  exists pre stanza post,
    stanzas = pre ++ stanza :: post /\
    Forall (passed_over c) pre /\
    age.Type_ stanza = "kms-rsa-oaep-sha256"%string /\
    (length (age.Args stanza) <> 1%nat \/
     exists id name, age.Args stanza = [id] /\ nameByKeyID c !! id = Some name).
Proof.
  induction stanzas as [|stanza stanzas IH]; [left; constructor|].
  assert (passed_over c stanza \/
          (age.Type_ stanza = "kms-rsa-oaep-sha256"%string /\
           (length (age.Args stanza) <> 1%nat \/
            exists id name, age.Args stanza = [id] /\
                            nameByKeyID c !! id = Some name))) as [Hover|Hstop].
  { destruct (String.eqb_spec (age.Type_ stanza) "kms-rsa-oaep-sha256")
      as [Hty|Hty]; [|left; by left].
    destruct (age.Args stanza) as [|id [|id' args]] eqn:Hargs.
    - right. split; [done|]. left. simpl. lia.
    - destruct (nameByKeyID c !! id) as [name|] eqn:Hlook.
      + right. split; [done|]. right. by exists id, name.
      + left. right. split; [done|]. by exists id.
    - right. split; [done|]. left. simpl. lia. }
  - destruct IH as [Hall | (pre & st & post & -> & Hpre & Hty & Hst)].
    + left. by constructor.
    + right. exists (stanza :: pre), st, post.
      split; [done|]. split; [by constructor|]. done.
  - right. exists [], stanza, stanzas. destruct Hstop as [Hty Hst].
    split; [done|]. split; [constructor|]. done.
Qed.

Lemma scan_events_lookups stanzas :
  Forall (fun ev => is_RegistryLookup ev = true) (scan_events stanzas).
Proof.
  induction stanzas as [|stanza stanzas IH]; simpl; [constructor|].
  destruct (String.eqb _ _); [|done]. by constructor.
Qed.

Lemma lookups_not_requests (P : kmspb.AsymmetricDecryptRequest -> Prop) evs :
  Forall (fun ev => is_RegistryLookup ev = true) evs ->
  Forall (fun ev => forall req, ev = EvAsymmetricDecrypt req -> P req) evs.
Proof.
  intros H. eapply List.Forall_impl; [|exact H].
  intros ev Hev req ->. discriminate Hev.
Qed.

(** X1.  The outcome of [Unwrap] is always one of three: every stanza is
    passed over and the result is [ErrIncorrectIdentity]; or the first
    stanza that is not passed over is malformed and the result is the
    invalid-recipient error; or that stanza is resolved by the registry
    and the result is the outcome of the one decrypt call made for it.
    In each case the events are the registry reads of the stanzas passed
    over, followed in the last case by the read and the call for the
    resolved stanza. *)
Theorem Unwrap_cases c stanzas w :
  (Forall (passed_over c) stanzas /\
   Unwrap c stanzas w
   = (Err ErrIncorrectIdentity, after w (remote w) (scan_events stanzas)))
  \/
  (exists pre stanza post,
      stanzas = pre ++ stanza :: post /\
      Forall (passed_over c) pre /\
      age.Type_ stanza = "kms-rsa-oaep-sha256"%string /\
      length (age.Args stanza) <> 1%nat /\
      Unwrap c stanzas w
      = (Err ErrInvalidRecipient, after w (remote w) (scan_events pre)))
  \/
  (exists pre stanza post id name,
      stanzas = pre ++ stanza :: post /\
      Forall (passed_over c) pre /\
      age.Type_ stanza = "kms-rsa-oaep-sha256"%string /\
      age.Args stanza = [id] /\
      nameByKeyID c !! id = Some name /\
      Unwrap c stanzas w
      = let req := decrypt_request name stanza in
        let evs := scan_events pre
                   ++ [EvRegistryLookup id; EvAsymmetricDecrypt req] in
        match kms.AsymmetricDecrypt (kmsClient c) req (remote w) with
        | (Ok resp, s) => (Ok (kmspb.Plaintext resp), after w s evs)
        | (Err err, s) => (Err err, after w s evs)
        end).
Proof.
  destruct (stanzas_split c stanzas)
    as [Hall | (pre & stanza & post & -> & Hpre & Hty & [Hbad | Hgood])].
  - left. split; [done|].
    rewrite <- (app_nil_r stanzas) at 1. by rewrite Unwrap_passed_over.
  - right. left. exists pre, stanza, post.
    repeat (split; [done|]).
    rewrite Unwrap_passed_over by done. by apply Unwrap_malformed.
  - right. right. destruct Hgood as (id & name & Hargs & Hlook).
    exists pre, stanza, post, id, name.
    repeat (split; [done|]). by apply Unwrap_first_resolved.
Qed.

(** X2.  Whatever the stanzas, every decrypt request that [Unwrap] sends
    is made from one of the stanzas and from the registry: the stanza is
    of the recognized type with a single argument, the name in the
    request is the name the registry holds for that argument, the
    ciphertext is the body of the stanza, and the checksum is the CRC of
    the body.  No request is sent under a name that the registry does
    not hold. *)
Theorem Unwrap_requests_from_registry c stanzas w :
  exists evs,
    trace (Unwrap c stanzas w).2 = trace w ++ evs /\
    Forall (fun ev =>
              forall req, ev = EvAsymmetricDecrypt req ->
                exists stanza id,
                  In stanza stanzas /\
                  age.Type_ stanza = "kms-rsa-oaep-sha256"%string /\
                  age.Args stanza = [id] /\
                  nameByKeyID c !! id
                  = Some (kmspb.AsymmetricDecryptRequest_Name req) /\
                  req = decrypt_request
                          (kmspb.AsymmetricDecryptRequest_Name req) stanza)
           evs.
Proof.
  destruct (stanzas_split c stanzas)
    as [Hall | (pre & st & post & -> & Hpre & Hty & [Hbad | Hgood])].
  - exists (scan_events stanzas). split.
    { rewrite <- (app_nil_r stanzas) at 1. by rewrite Unwrap_passed_over. }
    apply lookups_not_requests, scan_events_lookups.
  - exists (scan_events pre). split.
    { rewrite Unwrap_passed_over by done. by rewrite Unwrap_malformed. }
    apply lookups_not_requests, scan_events_lookups.
  - destruct Hgood as (id & name & Hargs & Hlook).
    exists (scan_events pre
            ++ [EvRegistryLookup id;
                EvAsymmetricDecrypt (decrypt_request name st)]).
    split.
    { rewrite (Unwrap_first_resolved c pre st post w id name) by done.
      cbv zeta. by destruct (kms.AsymmetricDecrypt _ _ _) as [[resp|err] s]. }
    apply Forall_app. split.
    + apply lookups_not_requests, scan_events_lookups.
    + constructor; [discriminate|]. constructor; [|constructor].
      intros req [= <-]. exists st, id.
      split; [apply in_or_app; right; by left|]. done.
Qed.

(** X3.  Stanzas of other types play no part: dropping them from the
    list changes neither the result of [Unwrap] nor what it does. *)
Theorem Unwrap_ignores_other_types c stanzas w :
  Unwrap c (filter (fun stanza =>
                      age.Type_ stanza = "kms-rsa-oaep-sha256"%string)
                   stanzas) w
  = Unwrap c stanzas w.
Proof.
  revert w. induction stanzas as [|stanza stanzas IH]; intros w; [done|].
  destruct (decide (age.Type_ stanza = "kms-rsa-oaep-sha256"%string))
    as [Hty|Hty].
  - rewrite filter_cons_True by done. simpl. rewrite Hty. simpl.
    destruct (length (age.Args stanza) =? 1)%nat; [|done]. simpl.
    unfold bind, lookup_nameByKeyID, bind, log, ret. simpl.
    destruct (nameByKeyID c !! _); [done|]. apply IH.
  - rewrite filter_cons_False by done.
    rewrite (Unwrap_other_type c stanza stanzas w Hty). apply IH.
Qed.

(** X4.  A client whose registry is empty makes no decrypt call, whatever
    the stanzas and whatever the service: the result is the
    invalid-recipient error or [ErrIncorrectIdentity], and the service
    is left as it was. *)
Theorem Unwrap_empty_registry c stanzas w :
  nameByKeyID c = ∅ ->
  exists err evs,
    Unwrap c stanzas w = (Err err, after w (remote w) evs) /\
    (err = ErrInvalidRecipient \/ err = ErrIncorrectIdentity) /\
    decrypt_calls evs = 0%nat.
Proof.
  intros Hempty.
  destruct (stanzas_split c stanzas)
    as [Hall | (pre & st & post & -> & Hpre & Hty & [Hbad | Hgood])].
  - exists ErrIncorrectIdentity, (scan_events stanzas). split.
    { rewrite <- (app_nil_r stanzas) at 1. by rewrite Unwrap_passed_over. }
    split; [by right|]. apply scan_events_no_decrypt.
  - exists ErrInvalidRecipient, (scan_events pre). split.
    { rewrite Unwrap_passed_over by done. by rewrite Unwrap_malformed. }
    split; [by left|]. apply scan_events_no_decrypt.
  - destruct Hgood as (id & name & _ & Hlook).
    rewrite Hempty, lookup_empty in Hlook. discriminate.
Qed.

(** The names in the decrypt requests of [Unwrap] are names that the
    registry holds. *)
Lemma Unwrap_request_names c stanzas w :
  exists evs,
    trace (Unwrap c stanzas w).2 = trace w ++ evs /\
    Forall (fun ev =>
              forall req, ev = EvAsymmetricDecrypt req ->
                exists id, nameByKeyID c !! id
                           = Some (kmspb.AsymmetricDecryptRequest_Name req))
           evs.
Proof.
  destruct (stanzas_split c stanzas)
    as [Hall | (pre & st & post & -> & Hpre & Hty & [Hbad | Hgood])].
  - exists (scan_events stanzas). split.
    { rewrite <- (app_nil_r stanzas) at 1. by rewrite Unwrap_passed_over. }
    apply lookups_not_requests, scan_events_lookups.
  - exists (scan_events pre). split.
    { rewrite Unwrap_passed_over by done. by rewrite Unwrap_malformed. }
    apply lookups_not_requests, scan_events_lookups.
  - destruct Hgood as (id & name & Hargs & Hlook).
    exists (scan_events pre
            ++ [EvRegistryLookup id;
                EvAsymmetricDecrypt (decrypt_request name st)]).
    split.
    { rewrite (Unwrap_first_resolved c pre st post w id name) by done.
      cbv zeta. by destruct (kms.AsymmetricDecrypt _ _ _) as [[resp|err] s]. }
    apply Forall_app. split.
    + apply lookups_not_requests, scan_events_lookups.
    + constructor; [discriminate|]. constructor; [|constructor].
      intros req [= <-]. by exists id.
Qed.

End UnwrapMore.
(** ** Building the registry *)

Section RegistryFacts.

Context {S : Type} `{!Collaborators S}.
Implicit Types (cl : gcpkms.client S) (w : gcpkms.world S).

Import gcpkms.

Lemma addKey_unsupported cl name w resp s :
  kms.GetPublicKey (kmsClient cl)
    {| kmspb.GetPublicKeyRequest_Name := name |} (remote w) = (Ok resp, s) ->
  unsupported (kmspb.Algorithm resp) ->
  addKey cl name w
  = (Err (ErrUnsupportedKeyType (kmspb.Algorithm resp)),
     after w s [EvGetPublicKey {| kmspb.GetPublicKeyRequest_Name := name |}]).
Proof.
  intros Hget (H1 & H2 & H3).
  unfold addKey, bind, call_GetPublicKey, bind, log, remote_call. simpl.
  rewrite Hget.
  destruct (Z.eqb_spec (kmspb.Algorithm resp)
              kmspb.CryptoKeyVersion_RSA_DECRYPT_OAEP_2048_SHA256); [done|].
  destruct (Z.eqb_spec (kmspb.Algorithm resp)
              kmspb.CryptoKeyVersion_RSA_DECRYPT_OAEP_3072_SHA256); [done|].
  destruct (Z.eqb_spec (kmspb.Algorithm resp)
              kmspb.CryptoKeyVersion_RSA_DECRYPT_OAEP_4096_SHA256); [done|].
  reflexivity.
Qed.

(** The loop over the names stops at the first name whose [addKey]
    fails. *)
Lemma addKeys_app cl pre names w cl' w' :
  addKeys cl pre w = (Ok cl', w') ->
  addKeys cl (pre ++ names) w = addKeys cl' names w'.
Proof.
  revert cl w. induction pre as [|name pre IH]; intros cl w Hpre; simpl in *.
  - by inversion Hpre.
  - destruct (addKey cl name w) as [[cl1|err] w1]; [|done]. by apply IH.
Qed.

Lemma addKeys_first_failure cl pre name post w cl' w' err w'' :
  addKeys cl pre w = (Ok cl', w') ->
  addKey cl' name w' = (Err err, w'') ->
  addKeys cl (pre ++ name :: post) w = (Err (ErrProblemWithKey name err), w'').
Proof.
  intros Hpre Hfail. rewrite (addKeys_app _ _ _ _ _ _ Hpre). simpl.
  by rewrite Hfail.
Qed.

Lemma addKeys_failure_inv cl names w err w1 :
  addKeys cl names w = (Err err, w1) ->
  exists pre name post cl' w' err',
    names = pre ++ name :: post /\
    addKeys cl pre w = (Ok cl', w') /\
    addKey cl' name w' = (Err err', w1) /\
    err = ErrProblemWithKey name err'.
Proof.
  revert cl w. induction names as [|name names IH]; intros cl w H; simpl in H.
  - discriminate.
  - destruct (addKey cl name w) as [[cl1|err1] w1'] eqn:Hadd.
    + destruct (IH _ _ H) as (pre & name' & post & cl' & w' & err' & -> & Hpre & Hfail & ->).
      exists (name :: pre), name', post, cl', w', err'.
      split; [done|]. split; [|done]. simpl. by rewrite Hadd.
    + inversion H; subst. exists [], name, names, cl, w, err1. done.
Qed.

End RegistryFacts.

Section RegistryClaims.

Context {S : Type} `{!Collaborators S}.
Implicit Types (cl : gcpkms.client S) (w : gcpkms.world S).

Import gcpkms.

(** C7.  (a) When the connection is made, the names before [name] are all
    added, and [addKey] fails for [name], then [NewClient] fails with
    that error wrapped together with [name]; no client is returned, and
    the names after [name] are not tried.  (b) [addKey] fails with the
    unsupported-key-type error whenever the algorithm of the fetched key
    is not one of the three RSA-OAEP SHA-256 variants.  (c) Every failure
    of [NewClient] is the failure to connect or arises as in (a), at the
    first name whose [addKey] fails. *)
Theorem NewClient_fails_fast :
  (forall names w kc s0 pre name post cl' w' err w'',
      kms_NewKeyManagementClient (remote w) = (Ok kc, s0) ->
      names = pre ++ name :: post ->
      addKeys {| kmsClient := kc; nameByKeyID := ∅ |} pre
              {| remote := s0; trace := trace w |} = (Ok cl', w') ->
      addKey cl' name w' = (Err err, w'') ->
      NewClient names w = (Err (ErrProblemWithKey name err), w''))
  /\
  (forall cl name w resp s,
      kms.GetPublicKey (kmsClient cl)
        {| kmspb.GetPublicKeyRequest_Name := name |} (remote w) = (Ok resp, s) ->
      unsupported (kmspb.Algorithm resp) ->
      addKey cl name w
      = (Err (ErrUnsupportedKeyType (kmspb.Algorithm resp)),
         after w s [EvGetPublicKey {| kmspb.GetPublicKeyRequest_Name := name |}]))
  /\
  (forall names w err w1,
      NewClient names w = (Err err, w1) ->
      (exists s0, kms_NewKeyManagementClient (remote w) = (Err err, s0)) \/
      (exists kc s0 pre name post cl' w' err',
          kms_NewKeyManagementClient (remote w) = (Ok kc, s0) /\
          names = pre ++ name :: post /\
          addKeys {| kmsClient := kc; nameByKeyID := ∅ |} pre
                  {| remote := s0; trace := trace w |} = (Ok cl', w') /\
          addKey cl' name w' = (Err err', w1) /\
          err = ErrProblemWithKey name err')).
Proof.
  split; [|split].
  - intros names w kc s0 pre name post cl' w' err w'' Hdial -> Hpre Hfail.
    unfold NewClient, bind, remote_call. rewrite Hdial.
    by apply addKeys_first_failure with cl' w'.
  - apply @addKey_unsupported.
  - intros names w err w1. unfold NewClient, bind, remote_call.
    destruct (kms_NewKeyManagementClient (remote w)) as [[kc|err0] s0] eqn:Hdial.
    + intros H. right.
      destruct (addKeys_failure_inv _ _ _ _ _ H)
        as (pre & name & post & cl' & w' & err' & ? & ? & ? & ?).
      by exists kc, s0, pre, name, post, cl', w', err'.
    + intros H. inversion H; subst. left. by exists s0.
Qed.

(** C8, as the code has it.  [parsePEMEncodedRSAPublicKey] returns a key
    exactly when [pem.Decode] finds a block, the type of the block is
    [RSA PUBLIC KEY], and [x509.ParsePKIXPublicKey] returns an RSA public
    key for its bytes; the key returned is that key.  It fails with the
    no-blocks error when no block is found, with the unexpected-block
    error when the block has any other type, with the error of the
    parser when the parser fails, and with the failed-to-parse error
    when the parser returns a key of another kind. *)
Theorem parsePEMEncodedRSAPublicKey_spec pemBytes :
  (forall key,
      parsePEMEncodedRSAPublicKey pemBytes = Ok key <->
      exists block,
        pem_Decode pemBytes = Some block /\
        pem.Type_ block = "RSA PUBLIC KEY"%string /\
        x509_ParsePKIXPublicKey (pem.Bytes block) = Ok (x509.RSAPublicKey key))
  /\ (pem_Decode pemBytes = None ->
      parsePEMEncodedRSAPublicKey pemBytes = Err ErrNoPEMBlocks)
  /\ (forall block,
        pem_Decode pemBytes = Some block ->
        pem.Type_ block <> "RSA PUBLIC KEY"%string ->
        parsePEMEncodedRSAPublicKey pemBytes
        = Err (ErrUnexpectedPEMBlock (pem.Type_ block)))
  /\ (forall block err,
        pem_Decode pemBytes = Some block ->
        pem.Type_ block = "RSA PUBLIC KEY"%string ->
        x509_ParsePKIXPublicKey (pem.Bytes block) = Err err ->
        parsePEMEncodedRSAPublicKey pemBytes = Err err)
  /\ (forall block parsed,
        pem_Decode pemBytes = Some block ->
        pem.Type_ block = "RSA PUBLIC KEY"%string ->
        x509_ParsePKIXPublicKey (pem.Bytes block) = Ok parsed ->
        (forall key, parsed <> x509.RSAPublicKey key) ->
        parsePEMEncodedRSAPublicKey pemBytes
        = Err (ErrFailedToParse (pem.Type_ block))).
Proof.
  unfold parsePEMEncodedRSAPublicKey.
  destruct (pem_Decode pemBytes) as [block|] eqn:Hdec.
  2:{ split; [|split; [done|split; [done|split; done]]].
      intros key. split; [done|]. by intros (? & ? & _). }
  destruct (String.eqb_spec (pem.Type_ block) "RSA PUBLIC KEY") as [Hty|Hty]; simpl.
  2:{ split; [|split; [done|split; [|split]]].
      - intros key. split; [done|]. intros (b & Hb & Hty' & _).
        inversion Hb; subst. done.
      - intros b Hb _. by inversion Hb; subst.
      - intros b err Hb Hty'. inversion Hb; subst. done.
      - intros b parsed Hb Hty'. inversion Hb; subst. done. }
  destruct (x509_ParsePKIXPublicKey (pem.Bytes block)) as [parsed|err] eqn:Hparse.
  2:{ split; [|split; [done|split; [|split]]].
      - intros key. split; [done|]. intros (b & Hb & _ & Hp).
        inversion Hb; subst. congruence.
      - intros b Hb Hty'. inversion Hb; subst. done.
      - intros b err' Hb _ Hp. inversion Hb; subst. congruence.
      - intros b parsed Hb _ Hp. inversion Hb; subst. congruence. }
  split; [|split; [done|split; [|split]]].
  - intros key. split.
    + destruct parsed; try done. intros [= ->]. by exists block.
    + intros (b & Hb & _ & Hp). inversion Hb; subst.
      rewrite Hparse in Hp. by inversion Hp.
  - intros b Hb Hty'. inversion Hb; subst. done.
  - intros b err Hb _ Hp. inversion Hb; subst. congruence.
  - intros b parsed' Hb _ Hp Hnot. inversion Hb; subst.
    rewrite Hparse in Hp. inversion Hp; subst.
    destruct parsed'; try done. by destruct (Hnot pub).
Qed.

End RegistryClaims.

(** *** The claims about the registry, run on the test doubles *)

Module RegistryWitnesses.

Import gcpkms Fixture.

Definition get (name : string) : event :=
  EvGetPublicKey {| kmspb.GetPublicKeyRequest_Name := name |}.

(** The second of three names is a signing key: the build fails at it,
    and the third name is not fetched. *)
Lemma NewClient_fails_fast_witness :
  @NewClient service collaborators ["keys/A"; "keys/sign"; "keys/A"]%string w0
  = (Err (ErrProblemWithKey "keys/sign"
            (ErrUnsupportedKeyType RSA_SIGN_PKCS1_2048_SHA256)),
     {| remote := 2%nat; trace := [get "keys/A"; get "keys/sign"] |}).
Proof.
  apply (proj1 (@NewClient_fails_fast service collaborators)
           ["keys/A"; "keys/sign"; "keys/A"]%string w0 kc 0%nat
           ["keys/A"%string] "keys/sign"%string ["keys/A"%string]
           {| kmsClient := kc;
              nameByKeyID := <[ idA := "keys/A/cryptoKeyVersions/1"%string ]> ∅ |}
           {| remote := 1%nat; trace := [get "keys/A"] |}).
  - reflexivity.
  - reflexivity.
  - vm_compute. reflexivity.
  - refine (proj1 (proj2 (@NewClient_fails_fast service collaborators))
              _ "keys/sign"%string {| remote := 1%nat; trace := [get "keys/A"] |}
              {| kmspb.Pem := pemA;
                 kmspb.Algorithm := RSA_SIGN_PKCS1_2048_SHA256;
                 kmspb.Name := "keys/sign/cryptoKeyVersions/1" |}
              2%nat _ _).
    + reflexivity.
    + unfold unsupported. simpl. repeat split; discriminate.
Defined.

(** A block of type [RSA PUBLIC KEY] holding an RSA key is accepted. *)
Lemma parsePEMEncodedRSAPublicKey_spec_witness :
  @parsePEMEncodedRSAPublicKey service collaborators (list_byte_of_string pemA)
  = Ok keyA.
Proof.
  apply (proj1 (@parsePEMEncodedRSAPublicKey_spec service collaborators
                  (list_byte_of_string pemA)) keyA).
  eexists. split; [vm_compute; reflexivity|]. split; reflexivity.
Defined.

(** C8, as stated, fails: a block of type [PUBLIC KEY] is decoded, its
    bytes parse as an RSA public key, and the key is refused. *)
Lemma parsePEMEncodedRSAPublicKey_refuses_other_block_type :
  exists block,
    decode (list_byte_of_string pemPKIX) = Some block /\
    parsePKIX (pem.Bytes block) = Ok (x509.RSAPublicKey keyA) /\
    @parsePEMEncodedRSAPublicKey service collaborators
      (list_byte_of_string pemPKIX)
    = Err (ErrUnexpectedPEMBlock "PUBLIC KEY").
Proof.
  eexists. split; [vm_compute; reflexivity|]. split; vm_compute; reflexivity.
Qed.

End RegistryWitnesses.


(** ** More about building the registry *)

Section RegistryMore.

Context {S : Type} `{!Collaborators S}.
Implicit Types (cl : gcpkms.client S) (w : gcpkms.world S).

Import gcpkms.

(** Whatever its outcome, [addKey] makes exactly one call: the fetch of
    the public key of the name. *)
Lemma addKey_trace cl name w :
  trace (addKey cl name w).2 = trace w ++ [fetch name].
Proof.
  unfold addKey, bind, call_GetPublicKey, bind, log, remote_call, throw, ret.
  simpl. destruct (kms.GetPublicKey _ _ _) as [[resp|err] s]; simpl; [|done].
  destruct (_ || _); simpl; [|done].
  destruct (parsePEMEncodedRSAPublicKey _) as [key|err]; simpl; [|done].
  done.
Qed.

(** What a successful [addKey] has done. *)
Lemma addKey_inv cl name w cl' w' :
  addKey cl name w = (Ok cl', w') ->
  exists resp s key,
    kms.GetPublicKey (kmsClient cl)
      {| kmspb.GetPublicKeyRequest_Name := name |} (remote w) = (Ok resp, s) /\
    fetched (kmsClient cl) name (identify key) (kmspb.Name resp) /\
    cl' = {| kmsClient := kmsClient cl;
             nameByKeyID := <[ identify key := kmspb.Name resp ]>
                              (nameByKeyID cl) |} /\
    w' = after w s [fetch name].
Proof.
  unfold addKey, bind, call_GetPublicKey, bind, log, remote_call, throw, ret.
  simpl.
  destruct (kms.GetPublicKey _ _ _) as [[resp|err] s] eqn:Hget; simpl; [|done].
  destruct (_ || _) eqn:Halg; simpl; [|done].
  destruct (parsePEMEncodedRSAPublicKey _) as [key|err] eqn:Hparse; simpl;
    [|done].
  intros [= <- <-]. exists resp, s, key.
  split; [done|]. split; [|done].
  by exists (remote w), resp, s, key.
Qed.


(** The loop over the names: the events are the fetches of the names
    tried, in order; on success all names have been tried. *)
Lemma addKeys_trace cl names w :
  exists k,
    (k <= length names)%nat /\
    trace (addKeys cl names w).2 = trace w ++ map fetch (take k names) /\
    match (addKeys cl names w).1 with
    | Ok cl' => k = length names /\ kmsClient cl' = kmsClient cl
    | Err err =>
        exists name err',
          (0 < k)%nat /\ names !! (k - 1)%nat = Some name /\
          err = ErrProblemWithKey name err'
    end.
Proof.
  revert cl w. induction names as [|name names IH]; intros cl w.
  - exists 0%nat. simpl. rewrite app_nil_r. done.
  - simpl. pose proof (addKey_trace cl name w) as Htr.
    destruct (addKey cl name w) as [[cl1|err] w1] eqn:Hadd; simpl in Htr.
    + destruct (IH cl1 w1) as (k & Hk & Htr' & Hres).
      exists (Datatypes.S k). split; [simpl; lia|]. split.
      * rewrite Htr', Htr. simpl. by rewrite <- app_assoc.
      * destruct (addKeys cl1 names w1) as [[cl2|err2] w2]; simpl in *.
        -- destruct Hres as [-> Hkc]. split; [done|].
           rewrite Hkc.
           by destruct (addKey_inv _ _ _ _ _ Hadd) as (? & ? & ? & _ & _ & -> & _).
        -- destruct Hres as (name' & err' & Hpos & Hlook & ->).
           exists name', err'. split; [lia|]. split; [|done].
           destruct k as [|k]; [lia|]. simpl in *.
           by rewrite Nat.sub_0_r in *.
    + exists 1%nat. simpl. split; [lia|]. split; [by rewrite ?take_0|].
      exists name, err. split; [lia|done].
Qed.

(** X6.  [NewClient] first makes the connection; when that fails it
    returns the error as it is and fetches nothing.  Otherwise it fetches
    the public keys of the names one at a time, in the order given, and
    nothing else: on success every name has been fetched once and the
    client holds the connection made; on failure the fetches stop at the
    name whose [addKey] failed, and that name is the one in the
    error. *)
Theorem NewClient_fetches_in_order names w :
  (forall err s0,
      kms_NewKeyManagementClient (remote w) = (Err err, s0) ->
      NewClient names w = (Err err, {| remote := s0; trace := trace w |}))
  /\
  (forall kc s0,
      kms_NewKeyManagementClient (remote w) = (Ok kc, s0) ->
      exists k,
        (k <= length names)%nat /\
        trace (NewClient names w).2 = trace w ++ map fetch (take k names) /\
        match (NewClient names w).1 with
        | Ok cl => k = length names /\ kmsClient cl = kc
        | Err err =>
            exists name err',
              (0 < k)%nat /\ names !! (k - 1)%nat = Some name /\
              err = ErrProblemWithKey name err'
        end).
Proof.
  split.
  - intros err s0 Hdial. unfold NewClient, bind, remote_call.
    by rewrite Hdial.
  - intros kc s0 Hdial. unfold NewClient, bind, remote_call. rewrite Hdial.
    apply (addKeys_trace {| kmsClient := kc; nameByKeyID := ∅ |} names
             {| remote := s0; trace := trace w |}).
Qed.

(** The registry after the loop: its entries are those it had and those
    fetched for the names; no entry is lost, and the identifier of every
    name is resolved. *)
Lemma addKeys_registry cl names w cl' w' :
  addKeys cl names w = (Ok cl', w') ->
  kmsClient cl' = kmsClient cl /\
  (forall id n,
      nameByKeyID cl' !! id = Some n ->
      nameByKeyID cl !! id = Some n \/
      exists name, In name names /\ fetched (kmsClient cl) name id n) /\
  (forall id, is_Some (nameByKeyID cl !! id) -> is_Some (nameByKeyID cl' !! id)) /\
  (forall name,
      In name names ->
      exists id n, fetched (kmsClient cl) name id n /\
                   is_Some (nameByKeyID cl' !! id)).
Proof.
  revert cl w. induction names as [|name names IH]; intros cl w; simpl.
  - intros [= <- <-]. split; [done|]. split; [by left|]. split; [done|].
    by intros name [].
  - destruct (addKey cl name w) as [[cl1|err] w1] eqn:Hadd; [|done].
    intros Hrest. destruct (IH _ _ Hrest) as (Hkc & Hsound & Hkeep & Hall).
    destruct (addKey_inv _ _ _ _ _ Hadd) as (resp & s & key & _ & Hf & -> & _).
    simpl in *. split; [done|]. split; [|split].
    + intros id n Hlook. destruct (Hsound id n Hlook) as [Hold | (nm & Hin & Hnm)].
      * destruct (decide (identify key = id)) as [<-|Hne].
        -- rewrite lookup_insert_eq in Hold. injection Hold as <-.
           right. exists name. split; [by left|done].
        -- rewrite lookup_insert_ne in Hold by done. by left.
      * right. exists nm. split; [by right|done].
    + intros id Hsome. apply Hkeep.
      destruct (decide (identify key = id)) as [<-|Hne].
      * rewrite lookup_insert_eq. by eexists.
      * by rewrite lookup_insert_ne.
    + intros nm [<-|Hin].
      * exists (identify key), (kmspb.Name resp). split; [done|].
        apply Hkeep. rewrite lookup_insert_eq. by eexists.
      * by apply Hall.
Qed.



End RegistryMore.
(** ** The two key identifiers *)



(** ** Wrapping, and the round trip *)

Section WrapClaims.

Lemma NewRecipient_ok (key : rsa.PublicKey) :
  rsaoaep.NewRecipient key
  = Ok {| rsaoaep.key := key; rsaoaep.recipient_keyID := identify key |}.
Proof. reflexivity. Qed.

Lemma Wrap_inv r fileKey random stanzas random' :
  rsaoaep.Wrap r fileKey random = (Ok stanzas, random') ->
  exists body,
    rsa.EncryptOAEP random (rsaoaep.key r) fileKey [] = (Ok body, random') /\
    stanzas = [ {| age.Type_ := "kms-rsa-oaep-sha256";
                   age.Args := [rsaoaep.recipient_keyID r];
                   age.Body := body |} ].
Proof.
  unfold rsaoaep.Wrap.
  destruct (rsa.EncryptOAEP _ _ _ _) as [[body|err] random1]; [|done].
  intros [= <- <-]. by exists body.
Qed.


Import gcpkms.


End WrapClaims.

(** *** Wrapping and the round trip, run on the test doubles *)

Module WrapWitnesses.

Import gcpkms Fixture.

Lemma EncryptOAEP_fileKey :
  rsa.EncryptOAEP entropy keyB fileKey []
  = (Ok ciphertext,
     {| io.pending := drop 32 (io.pending entropy); io.fault := EOF |}).
Proof. vm_compute. reflexivity. Qed.

Lemma Wrap_fileKey :
  rsaoaep.Wrap recipientB fileKey entropy
  = (Ok wrapped,
     {| io.pending := drop 32 (io.pending entropy); io.fault := EOF |}).
Proof.
  unfold wrapped, rsaoaep.Wrap. simpl rsaoaep.key.
  rewrite EncryptOAEP_fileKey. reflexivity.
Qed.

(** The service recovers the file key from the ciphertext. *)
Lemma hsm_decrypts crc :
  kms.AsymmetricDecrypt hsm
    {| kmspb.AsymmetricDecryptRequest_Name := "keys/B/cryptoKeyVersions/1";
       kmspb.Ciphertext := ciphertext;
       kmspb.CiphertextCrc32C := crc |} 0%nat
  = (Ok {| kmspb.Plaintext := fileKey;
           kmspb.PlaintextCrc32C := Some (crc32c fileKey);
           kmspb.VerifiedCiphertextCrc32C := true |}, 1%nat).
Proof. vm_compute. reflexivity. Qed.



End WrapWitnesses.

(** ** How far the identifier determines the key *)

Section IdentifyClaims.

Import Fixture.

Lemma Ok_inj {A} (x y : A) : Ok x = Ok y -> x = y.
Proof. by intros [= ->]. Qed.

Lemma keyID_is_identify (key : rsa.PublicKey) :
  rsaoaep.keyID key = Ok (identify key).
Proof. reflexivity. Qed.

(** Equal identifiers are equal digests. *)
Lemma identify_eq_iff (k1 k2 : rsa.PublicKey) :
  identify k1 = identify k2 <->
  sha256.Sum256 (asn1.marshalPublicKey k1)
  = sha256.Sum256 (asn1.marshalPublicKey k2).
Proof.
  unfold identify. split; [apply EncodeToString_inj | by intros ->].
Qed.

Lemma digest_of_unfold (key : rsa.PublicKey) :
  digest_of key = be_value (sha256.Sum256 (asn1.marshalPublicKey key)).
Proof. reflexivity. Qed.

Lemma key_of_valid (i : Z) : 0 <= i <= 2 ^ 256 -> rsa.valid (key_of i).
Proof.
  intros Hi. unfold rsa.valid, key_of. simpl.
  assert (2 ^ 257 < 2 ^ 2047) by (apply Z.pow_lt_mono_r; lia).
  assert (2 ^ 257 = 2 * 2 ^ 256) by (by rewrite <- Z.pow_succ_r).
  assert (2 ^ 2048 = 2 * 2 ^ 2047) by (by rewrite <- Z.pow_succ_r).
  assert (0 < 2 ^ 2047) by (by apply Z.pow_pos_nonneg).
  set (n := 2 ^ 2047 + 2 * i + 1).
  assert (0 < n < 2 ^ 2048) as Hn by (unfold n; lia).
  split; [lia|]. split; [|lia].
  pose proof (BitLen_lower n ltac:(lia)) as Hl. rewrite Z.abs_eq in Hl by lia.
  destruct (Z.le_gt_cases (big.BitLen n) 2048) as [|Hgt]; [lia|].
  assert (2 ^ 2048 <= 2 ^ (big.BitLen n - 1))
    by (apply Z.pow_le_mono_r; lia). lia.
Qed.

(** Two valid keys with different moduli have the same identifier. *)
Lemma identify_collision :
  exists k1 k2,
    rsa.valid k1 /\ rsa.valid k2 /\ rsa.N k1 <> rsa.N k2 /\
    rsaoaep.keyID k1 = rsaoaep.keyID k2.
Proof.
  destruct (pigeonhole (2 ^ 256) ltac:(lia) (fun i => digest_of (key_of i)))
    as (i & j & Hij & Hj & Heq).
  { intros i _. rewrite digest_of_unfold. apply Sum256_value_range. }
  exists (key_of i), (key_of j).
  split; [apply key_of_valid; lia|]. split; [apply key_of_valid; lia|].
  split; [simpl; lia|].
  simpl in Heq. rewrite !digest_of_unfold in Heq.
  rewrite !keyID_is_identify. f_equal. apply identify_eq_iff.
  apply Sum256_value_inj. exact Heq.
Qed.



End IdentifyClaims.

Module IdentifyWitnesses.

Import Fixture.


End IdentifyWitnesses.

(** ** More about [Wrap] and about the identifier *)

Section WrapMore.

Import gcpkms.

(** X9.  The outcomes of [Wrap], by what the recipient's key, the file
    key and the random source are.  A public exponent out of range and a
    file key too long for the modulus (more than the modulus size less
    66 bytes) are refused before the random source is read, which is
    left as it was.  When the random source cannot deliver the 32 bytes
    of the seed, its error is returned (or the unexpected-end error, when
    it ended part way) and there is no stanza.  Otherwise [Wrap] returns
    one stanza with a body of the size of the modulus, and has taken
    exactly 32 bytes from the random source. *)
Theorem Wrap_outcomes (r : rsaoaep.recipient) (fileKey : list byte)
    (random : io.Reader) :
  let pub := rsaoaep.key r in
  let room := Z.of_nat (rsa.Size pub) - 66 in
  (rsa.E pub < 2 ->
   rsaoaep.Wrap r fileKey random = (Err errPublicExponentSmall, random))
  /\ (2 ^ 31 - 1 < rsa.E pub ->
      rsaoaep.Wrap r fileKey random = (Err errPublicExponentLarge, random))
  /\ (2 <= rsa.E pub <= 2 ^ 31 - 1 ->
      room < Z.of_nat (length fileKey) ->
      rsaoaep.Wrap r fileKey random = (Err ErrMessageTooLong, random))
  /\ (2 <= rsa.E pub <= 2 ^ 31 - 1 ->
      Z.of_nat (length fileKey) <= room ->
      (length (io.pending random) < 32)%nat ->
      exists err,
        rsaoaep.Wrap r fileKey random
        = (Err err, {| io.pending := []; io.fault := io.fault random |})
        /\ (err = io.fault random \/ err = ErrUnexpectedEOF))
  /\ (2 <= rsa.E pub <= 2 ^ 31 - 1 ->
      Z.of_nat (length fileKey) <= room ->
      (32 <= length (io.pending random))%nat ->
      exists body,
        rsaoaep.Wrap r fileKey random
        = (Ok [ {| age.Type_ := "kms-rsa-oaep-sha256";
                   age.Args := [rsaoaep.recipient_keyID r];
                   age.Body := body |} ],
           {| io.pending := drop 32 (io.pending random);
              io.fault := io.fault random |})
        /\ length body = rsa.Size pub).
Proof.
  intros pub room. unfold rsaoaep.Wrap, rsa.EncryptOAEP, rsa.checkPub.
  fold pub. change (Z.of_nat sha256.Size) with 32.
  change sha256.Size with 32%nat.
  replace (Z.of_nat (rsa.Size pub) - 2 * 32 - 2) with room by (unfold room; lia).
  destruct (Z.ltb_spec (rsa.E pub) 2) as [Hs|Hs].
  { split; [done|]. repeat split; intros; lia. }
  destruct (Z.ltb_spec (2 ^ 31 - 1) (rsa.E pub)) as [Hl|Hl].
  { split; [lia|]. split; [done|]. repeat split; intros; lia. }
  destruct (Z.ltb_spec room (Z.of_nat (length fileKey))) as [Hm|Hm].
  { split; [lia|]. split; [lia|]. split; [done|]. split; intros; lia. }
  unfold io.ReadFull.
  destruct (Nat.leb_spec 32 (length (io.pending random))) as [Hr|Hr].
  - split; [lia|]. split; [lia|]. split; [lia|]. split; [lia|].
    intros _ _ _. eexists. split; [reflexivity|]. apply FillBytes_length.
  - split; [lia|]. split; [lia|]. split; [lia|]. split; [|lia].
    intros _ _ _. eexists. split; [reflexivity|].
    destruct (io.pending random), (io.fault random); auto.
Qed.


Lemma Encode_length (l : list byte) :
  length (base64.Encode l) = (4 * ((length l + 2) / 3))%nat.
Proof.
  induction l as [|a|a b|a b c l IH] using list_ind3; try reflexivity.
  cbn [base64.Encode length]. rewrite IH.
  replace (Datatypes.S (Datatypes.S (Datatypes.S (length l))) + 2)%nat
    with ((length l + 2) + 1 * 3)%nat by lia.
  rewrite Nat.div_add by lia. lia.
Qed.

Lemma encode_visible (i : Z) : visible (base64.encode i).
Proof.
  unfold base64.encode.
  assert (Forall visible (list_ascii_of_string base64.encodeStd)) as Hall.
  { unfold visible. simpl. repeat constructor; simpl; lia. }
  destruct (Nat.lt_ge_cases (Z.to_nat i)
              (length (list_ascii_of_string base64.encodeStd))) as [Hi|Hi].
  - rewrite List.Forall_forall in Hall. apply Hall. by apply nth_In.
  - rewrite nth_overflow by done. unfold visible.
    replace (nat_of_ascii "A") with 65%nat by reflexivity. lia.
Qed.

Lemma Encode_visible (l : list byte) : Forall visible (base64.Encode l).
Proof.
  assert (visible base64.StdPadding) as Hpad by (unfold visible;
        replace (nat_of_ascii base64.StdPadding) with 61%nat by reflexivity; lia).
  induction l as [|a|a b|a b c l IH] using list_ind3; cbn [base64.Encode];
    repeat (constructor; try apply encode_visible; try done).
Qed.

Lemma length_string_of_list (l : list ascii) :
  String.length (string_of_list_ascii l) = length l.
Proof. induction l as [|a l IH]; simpl; [done|]. by rewrite IH. Qed.


(** X12.  The checksum that [Unwrap] sends is a 32-bit value: [crc32c]
    is at least 0 and below 2^32 for every input, so that its conversion
    to a signed 64-bit integer keeps its value. *)
Theorem crc32c_range (data : list byte) : 0 <= crc32c data < 2 ^ 32.
Proof.
  unfold crc32c, crc32.Checksum.
  apply Update_range; [|lia]. unfold crc32.Castagnoli. lia.
Qed.

End WrapMore.

(** *** The further properties, run on the test doubles *)

Module MoreWitnesses.

Import gcpkms Fixture.

(** A client without keys, and stanzas among which one is malformed. *)
Lemma Unwrap_empty_registry_witness :
  exists err evs,
    Unwrap {| kmsClient := kc; nameByKeyID := ∅ |}
      [x25519; for_B; two_args] w0
    = (Err err, after w0 (remote w0) evs) /\
    (err = ErrInvalidRecipient \/ err = ErrIncorrectIdentity) /\
    decrypt_calls evs = 0%nat.
Proof.
  apply (Unwrap_empty_registry {| kmsClient := kc; nameByKeyID := ∅ |}
           [x25519; for_B; two_args] w0).
  reflexivity.
Defined.

Lemma addKey_A :
  @addKey service collaborators {| kmsClient := kc; nameByKeyID := ∅ |}
    "keys/A" w0
  = (Ok clA, {| remote := 1%nat; trace := [fetch "keys/A"] |}).
Proof. vm_compute. reflexivity. Qed.

Lemma NewClient_A :
  @NewClient service collaborators ["keys/A"%string] w0
  = (Ok clA, {| remote := 1%nat; trace := [fetch "keys/A"] |}).
Proof. vm_compute. reflexivity. Qed.


Lemma NewClient_fetches_in_order_witness :
  exists k,
    (k <= 3)%nat /\
    trace (@NewClient service collaborators
             ["keys/A"; "keys/sign"; "keys/A"]%string w0).2
    = [] ++ map fetch (take k ["keys/A"; "keys/sign"; "keys/A"]%string) /\
    match (@NewClient service collaborators
             ["keys/A"; "keys/sign"; "keys/A"]%string w0).1 with
    | Ok cl => k = 3%nat /\ kmsClient cl = kc
    | Err err =>
        exists name err',
          (0 < k)%nat /\
          ["keys/A"; "keys/sign"; "keys/A"]%string !! (k - 1)%nat = Some name /\
          err = ErrProblemWithKey name err'
    end.
Proof.
  apply (proj2 (@NewClient_fetches_in_order service collaborators
                  ["keys/A"; "keys/sign"; "keys/A"]%string w0) kc 0%nat).
  reflexivity.
Defined.



(** A file key of 18 bytes is one byte too long for the 83-byte modulus
    of [keyB]. *)
Lemma Wrap_outcomes_witness :
  rsaoaep.Wrap recipientB (fileKey ++ [x00; x00]) entropy
  = (Err ErrMessageTooLong, entropy).
Proof.
  apply (proj1 (proj2 (proj2 (Wrap_outcomes recipientB (fileKey ++ [x00; x00])
                                entropy)))).
  - vm_compute. split; discriminate.
  - vm_compute. reflexivity.
Defined.

Lemma cl_lacks_keyB : nameByKeyID cl !! identify keyB = None.
Proof. vm_compute. reflexivity. Qed.


End MoreWitnesses.
